(** * MLS-MPM in two dimensions: a shallow embedding of [tetris.cpp]

    The program advances a set of material points by one time step:
    particle-to-grid scatter (P2G), a per-node grid solve (normalisation,
    gravity, boundary), and grid-to-particle gather (G2P) with the
    constitutive update of the deformation gradient.

    Numbers.  The program computes in [real] (IEEE floating point).  This
    development models [real] by the exact rationals [Qc] (canonical
    fractions, so that equality is Leibniz equality and every definition
    still evaluates).  Rounding, overflow, infinities and NaN are therefore
    outside the model; every statement below is a statement about the
    exact-arithmetic reading of the code.

    Undefined and meaningless operations.  An index outside
    [grid[n + 1][n + 1]] is undefined behaviour in C++, and a division by
    zero has no rational value; both are results [Err _] of the error monad
    below.

    What is not in [tetris.cpp].  [std::exp] and taichi.h's [polar_decomp]
    and [svd] are taken as the fields of a record [MathLib]; the theorems
    that need a property of them state it as a hypothesis. *)

From Stdlib Require Import ZArith QArith Qcanon Qround Lqa Lia List Bool FinFun.
Import ListNotations.

Open Scope Z_scope.
Open Scope Qc_scope.

(** ** The type [real] *)

Abbreviation real := Qc (only parsing).

Notation "a # b" := (Q2Qc (Qmake a b)) : Qc_scope.

(** [(real) i] for an [int] [i]. *)
Definition real_of_int (i : Z) : real := Q2Qc (inject_Z i).

(** Modelled from the spec: [cast<int>] of a [real] belongs to taichi.h,
    which is not part of the sources at hand.  The source comments both of
    its uses as "element-wise floor" and the specification locates the base
    cell by [floor(position / cell_size - 0.5)]; the cast is the floor. *)
Definition cast_int (r : real) : Z := Qfloor r.

(** [a < b] as the C++ comparison, a boolean. *)
Definition Qcltb (a b : real) : bool :=
  match a ?= b with Lt => true | _ => false end.

Infix "<?" := Qcltb (at level 70, no associativity) : Qc_scope.

(** [std::max(a, b)]: [b] when [a < b], otherwise [a]. *)
Definition Qcmax (a b : real) : real := if a <? b then b else a.

(** Modelled from the spec: taichi.h's [clamp(a, lo, hi)] is not part of the
    sources at hand; it is the clamp of [a] to the range [[lo, hi]]. *)
Definition clamp (a lo hi : real) : real :=
  if a <? lo then lo else if hi <? a then hi else a.

(** [sqr(a)]. *)
Definition sqr (a : real) : real := a * a.

(** ** Errors *)

Inductive error : Set :=
| OutOfBounds      (* an index outside [0, n] of [grid] *)
| DivisionByZero.  (* a quotient whose divisor is zero *)

Inductive result (A : Type) : Type :=
| Ok (a : A)
| Err (e : error).

Arguments Ok {A} a.
Arguments Err {A} e.

Definition bind {A B : Type} (m : result A) (k : A -> result B) : result B :=
  match m with
  | Ok a => k a
  | Err e => Err e
  end.

Notation "x <- m ;; k" := (bind m (fun x => k))
  (at level 61, m at next level, right associativity).

(** A checked quotient. *)
Definition checked_div (a b : real) : result real :=
  if Qc_eq_dec b 0 then Err DivisionByZero else Ok (a / b).

(** ** Vectors and matrices *)

(** Modelled from the spec: taichi.h, which declares [Vector2], [Vector2i],
    [Vector3] and [Matrix2], is not part of the sources at hand.  The types
    are the tuples of their components and the operators are the
    componentwise sums and scalings, the matrix product, the transpose, the
    determinant and the outer product that the formulas of the
    specification use. *)
Record Vec : Set := mkVec { vx : real; vy : real }.
Record Vector2i : Set := mkVector2i { ix : Z; iy : Z }.
Record Vector3 : Set := mkVector3 { g0 : real; g1 : real; g2 : real }.

(** [m_rc] is the entry of row [r] and column [c]. *)
Record Mat : Set := mkMat { m00 : real; m01 : real; m10 : real; m11 : real }.

(** [Vec(a)], [Vec(i, j)] of two [int]s, [Vector3(a)], [Mat(a)]: the last is
    [a] times the identity. *)
Definition Vec1 (a : real) : Vec := mkVec a a.
Definition Vec_of_ints (i j : Z) : Vec := mkVec (real_of_int i) (real_of_int j).
Definition Vector3_1 (a : real) : Vector3 := mkVector3 a a a.
Definition Mat1 (a : real) : Mat := mkMat a 0 0 a.

Definition Vec_add (a b : Vec) : Vec := mkVec (vx a + vx b) (vy a + vy b).
Definition Vec_sub (a b : Vec) : Vec := mkVec (vx a - vx b) (vy a - vy b).
Definition Vec_mul (a b : Vec) : Vec := mkVec (vx a * vx b) (vy a * vy b).
Definition Vec_scale (a : Vec) (k : real) : Vec := mkVec (vx a * k) (vy a * k).
Definition scale_Vec (k : real) (a : Vec) : Vec := mkVec (k * vx a) (k * vy a).
Definition Vec_sqr (a : Vec) : Vec := mkVec (sqr (vx a)) (sqr (vy a)).

(** [v.cast<int>()] and [b.cast<real>()]. *)
Definition Vec_cast_int (a : Vec) : Vector2i :=
  mkVector2i (cast_int (vx a)) (cast_int (vy a)).
Definition Vector2i_cast_real (b : Vector2i) : Vec :=
  mkVec (real_of_int (ix b)) (real_of_int (iy b)).

Definition Vector3_add (a b : Vector3) : Vector3 :=
  mkVector3 (g0 a + g0 b) (g1 a + g1 b) (g2 a + g2 b).
Definition scale_Vector3 (k : real) (a : Vector3) : Vector3 :=
  mkVector3 (k * g0 a) (k * g1 a) (k * g2 a).

(** [Vector3(v, a)] and [Vec(g)]. *)
Definition Vector3_of (u : Vec) (a : real) : Vector3 := mkVector3 (vx u) (vy u) a.
Definition Vec_of_Vector3 (g : Vector3) : Vec := mkVec (g0 g) (g1 g).

Definition Mat_add (a b : Mat) : Mat :=
  mkMat (m00 a + m00 b) (m01 a + m01 b) (m10 a + m10 b) (m11 a + m11 b).
Definition Mat_sub (a b : Mat) : Mat :=
  mkMat (m00 a - m00 b) (m01 a - m01 b) (m10 a - m10 b) (m11 a - m11 b).
Definition scale_Mat (k : real) (a : Mat) : Mat :=
  mkMat (k * m00 a) (k * m01 a) (k * m10 a) (k * m11 a).
Definition Mat_mul (a b : Mat) : Mat :=
  mkMat (m00 a * m00 b + m01 a * m10 b) (m00 a * m01 b + m01 a * m11 b)
        (m10 a * m00 b + m11 a * m10 b) (m10 a * m01 b + m11 a * m11 b).
Definition Mat_vec (a : Mat) (u : Vec) : Vec :=
  mkVec (m00 a * vx u + m01 a * vy u) (m10 a * vx u + m11 a * vy u).
Definition transposed (a : Mat) : Mat := mkMat (m00 a) (m10 a) (m01 a) (m11 a).
Definition determinant (a : Mat) : real := m00 a * m11 a - m01 a * m10 a.

(** [Mat::outer_product(a, b)], the matrix [a bᵗ]. *)
Definition outer_product (a b : Vec) : Mat :=
  mkMat (vx a * vx b) (vx a * vy b) (vy a * vx b) (vy a * vy b).

(** ** What the program takes from [<cmath>] and taichi.h *)

Record MathLib : Type := mkMathLib {
  exp : real -> real;
  (** [polar_decomp(A, r, s)] as the pair [(r, s)] *)
  polar_decomp : Mat -> Mat * Mat;
  (** [svd(A, u, sig, v)] as the triple [(u, sig, v)] *)
  svd : Mat -> Mat * Mat * Mat
}.

(** ** Constants (lines 4-8) *)

Definition n : Z := 80.
Definition dt : real := 1 # 10000.
Definition frame_dt : real := 1 # 1000.
Definition dx : real := 1 / real_of_int n.
Definition inv_dx : real := 1 / dx.
Definition particle_mass : real := 1.
Definition vol : real := 1.
Definition hardening : real := 10 # 1.
Definition E : real := 10000 # 1.
Definition nu : real := 2 # 10.
Definition mu_0 : real := E / ((2 # 1) * (1 + nu)).
Definition lambda_0 : real := E * nu / ((1 + nu) * (1 - (2 # 1) * nu)).

(** ** Particles and the grid (lines 12-23) *)

Record Particle : Set := mkParticle {
  x : Vec;
  v : Vec;
  F : Mat;
  C : Mat;
  Jp : real;
  c : Z;       (* color *)
  type : Z     (* 0: elastic   1: plastic   2: liquid *)
}.

(** The constructor [Particle(x, c, type, v = Vec(0))]. *)
Definition new_Particle (x0 : Vec) (c0 type0 : Z) (v0 : Vec) : Particle :=
  mkParticle x0 v0 (Mat1 1) (Mat1 0) 1 c0 type0.

(** [Vector3 grid[n + 1][n + 1]]: the contents are a map from index pairs;
    only the pairs in [0, n] x [0, n] are part of the array, and every read
    and write first checks that. *)
Definition Grid : Type := Z -> Z -> Vector3.

Definition in_bounds (i j : Z) : bool :=
  (0 <=? i)%Z && (i <=? n)%Z && (0 <=? j)%Z && (j <=? n)%Z.

Definition grid_get (g : Grid) (i j : Z) : result Vector3 :=
  if in_bounds i j then Ok (g i j) else Err OutOfBounds.

Definition grid_set (g : Grid) (i j : Z) (val : Vector3) : Grid :=
  fun i' j' => if (i' =? i)%Z && (j' =? j)%Z then val else g i' j'.

(** [grid[i][j] += val]. *)
Definition grid_add (g : Grid) (i j : Z) (val : Vector3) : result Grid :=
  if in_bounds i j then Ok (grid_set g i j (Vector3_add (g i j) val))
  else Err OutOfBounds.

(** [std::memset(grid, 0, sizeof(grid))]. *)
Definition memset_grid (g : Grid) : Grid := fun _ _ => Vector3_1 0.

(** The two globals. *)
Record State : Type := mkState {
  particles : list Particle;
  grid : Grid
}.

(** ** Loops *)

(** [for (auto &a : l) body], threading the state [s] and stopping at the
    first error. *)
Fixpoint for_each {A S : Type} (l : list A) (body : A -> S -> result S) (s : S)
  : result S :=
  match l with
  | [] => Ok s
  | a :: l' => s' <- body a s ;; for_each l' body s'
  end.

(** The values of [i] in [for (int i = lo; i < hi; i++)]. *)
Definition range (lo hi : Z) : list Z :=
  map (fun k => (lo + Z.of_nat k)%Z) (seq 0 (Z.to_nat (hi - lo))).

Definition for_loop {S : Type} (lo hi : Z) (body : Z -> S -> result S) (s : S)
  : result S :=
  for_each (range lo hi) body s.

(** A loop that rewrites each element of a list in place. *)
Fixpoint map_result {A B : Type} (f : A -> result B) (l : list A)
  : result (list B) :=
  match l with
  | [] => Ok []
  | a :: l' => b <- f a ;; bs <- map_result f l' ;; Ok (b :: bs)
  end.

(** ** The quadratic kernel (lines 28-33 and 67-71) *)

(** [w[i]] of [Vec w[3]]. *)
Definition w_at (w : list Vec) (i : Z) : Vec := nth (Z.to_nat i) w (Vec1 0).

(** P2G, lines 28-33. *)
Definition p2g_base_coord (p : Particle) : Vector2i :=
  Vec_cast_int (Vec_sub (Vec_scale (x p) inv_dx) (Vec1 (1 # 2))).

Definition p2g_fx (p : Particle) : Vec :=
  Vec_sub (Vec_scale (x p) inv_dx) (Vector2i_cast_real (p2g_base_coord p)).

Definition p2g_w (p : Particle) : list Vec :=
  let fx := p2g_fx p in
  [ Vec_mul (Vec1 (1 # 2)) (Vec_sqr (Vec_sub (Vec1 (3 # 2)) fx));
    Vec_sub (Vec1 (3 # 4)) (Vec_sqr (Vec_sub fx (Vec1 1)));
    Vec_mul (Vec1 (1 # 2)) (Vec_sqr (Vec_sub fx (Vec1 (1 # 2)))) ].

(** G2P, lines 67-71. *)
Definition g2p_base_coord (p : Particle) : Vector2i :=
  Vec_cast_int (Vec_sub (Vec_scale (x p) inv_dx) (Vec1 (1 # 2))).

Definition g2p_fx (p : Particle) : Vec :=
  Vec_sub (Vec_scale (x p) inv_dx) (Vector2i_cast_real (g2p_base_coord p)).

Definition g2p_w (p : Particle) : list Vec :=
  let fx := g2p_fx p in
  [ Vec_mul (Vec1 (1 # 2)) (Vec_sqr (Vec_sub (Vec1 (3 # 2)) fx));
    Vec_sub (Vec1 (3 # 4)) (Vec_sqr (Vec_sub fx (Vec1 1)));
    Vec_mul (Vec1 (1 # 2)) (Vec_sqr (Vec_sub fx (Vec1 (1 # 2)))) ].

(** ** P2G (lines 27-51) *)

Section Step.

Variable L : MathLib.

(** Lines 34-41: the Cauchy stress times [dt] and [inv_dx].  The scalar
    [lambda * (J - 1) * J] added to a matrix is that scalar times the
    identity. *)
Definition stress (dt : real) (p : Particle) : Mat :=
  let e := exp L (hardening * (1 - Jp p)) in
  let mu := mu_0 * e in
  let lambda := lambda_0 * e in
  let J := determinant (F p) in
  let r := fst (polar_decomp L (F p)) in
  scale_Mat ((-4 # 1) * inv_dx * inv_dx * dt * vol)
    (Mat_add
       (Mat_mul (scale_Mat ((2 # 1) * mu) (Mat_sub (F p) r)) (transposed (F p)))
       (Mat1 (lambda * (J - 1) * J))).

(** Line 42. *)
Definition affine (dt : real) (p : Particle) : Mat :=
  Mat_add (stress dt p) (scale_Mat particle_mass (C p)).

(** Lines 45-49: what node [(i, j)] of the stencil receives. *)
Definition p2g_contribution (A : Mat) (p : Particle) (i j : Z) : Vector3 :=
  let fx := p2g_fx p in
  let w := p2g_w p in
  let dpos := Vec_scale (Vec_sub (Vec_of_ints i j) fx) dx in
  let mv := Vector3_of (Vec_scale (v p) particle_mass) particle_mass in
  scale_Vector3 (vx (w_at w i) * vy (w_at w j))
    (Vector3_add mv (Vector3_of (Mat_vec A dpos) 0)).

(** Lines 43-50 for an affine matrix [A]. *)
Definition p2g_scatter (A : Mat) (p : Particle) (g : Grid) : result Grid :=
  let base_coord := p2g_base_coord p in
  for_loop 0 3 (fun i g =>
    for_loop 0 3 (fun j g =>
      grid_add g (ix base_coord + i) (iy base_coord + j)
        (p2g_contribution A p i j)) g) g.

(** The body of the loop of line 27. *)
Definition p2g_particle (dt : real) (p : Particle) (g : Grid) : result Grid :=
  p2g_scatter (affine dt p) p g.

Definition p2g (dt : real) (ps : list Particle) (g : Grid) : result Grid :=
  for_each ps (p2g_particle dt) g.

End Step.

(** ** Grid solve (lines 52-65) *)

(** [g /= a], every component divided by [a]. *)
Definition Vector3_div (g : Vector3) (a : real) : result Vector3 :=
  q0 <- checked_div (g0 g) a ;;
  q1 <- checked_div (g1 g) a ;;
  q2 <- checked_div (g2 g) a ;;
  Ok (mkVector3 q0 q1 q2).

(** Lines 55-64 on the node [g = grid[i][j]]. *)
Definition node_update (dt : real) (i j : Z) (g : Vector3) : result Vector3 :=
  if 0 <? g2 g then
    g <- Vector3_div g (g2 g) ;;
    let g := Vector3_add g (scale_Vector3 dt (mkVector3 0 (-200 # 1) 0)) in
    let boundary := 5 # 100 in
    let x := real_of_int i / real_of_int n in
    let y := real_of_int j / real_of_int n in
    let g :=
      if (x <? boundary) || (1 - boundary <? x) || (1 - boundary <? y)
      then Vector3_1 0 else g in
    let g :=
      if y <? boundary then mkVector3 (g0 g) (Qcmax 0 (g1 g)) (g2 g) else g in
    Ok g
  else Ok g.

Definition grid_solve (dt : real) (g : Grid) : result Grid :=
  for_loop 0 (n + 1) (fun i g =>
    for_loop 0 (n + 1) (fun j g =>
      node <- grid_get g i j ;;
      node <- node_update dt i j node ;;
      Ok (grid_set g i j node)) g) g.

(** ** G2P and the constitutive update (lines 66-98) *)

Section Gather.

Variable L : MathLib.

(** Lines 72-82: [p.v] and [p.C] gathered from the nine nodes. *)
Definition g2p_gather (g : Grid) (p : Particle) : result (Vec * Mat) :=
  let base_coord := g2p_base_coord p in
  let fx := g2p_fx p in
  let w := g2p_w p in
  for_loop 0 3 (fun i acc =>
    for_loop 0 3 (fun j acc =>
      let dpos := Vec_sub (Vec_of_ints i j) fx in
      node <- grid_get g (ix base_coord + i) (iy base_coord + j) ;;
      let grid_v := Vec_of_Vector3 node in
      let weight := vx (w_at w i) * vy (w_at w j) in
      Ok (Vec_add (fst acc) (scale_Vec weight grid_v),
          Mat_add (snd acc)
            (scale_Mat ((4 # 1) * inv_dx)
               (outer_product (scale_Vec weight grid_v) dpos)))) acc)
    (Vec1 0, Mat1 0).

(** Lines 87-94: the snow plasticity of a trial gradient [F1]; the result
    is the new [F] and the new [Jp]. *)
Definition snow_plasticity (F1 : Mat) (Jp0 : real) : result (Mat * real) :=
  let '(svd_u, sig, svd_v) := svd L F1 in
  let sig :=
    mkMat (clamp (m00 sig) (1 - (25 # 1000)) (1 + (75 # 10000))) (m01 sig)
          (m10 sig) (clamp (m11 sig) (1 - (25 # 1000)) (1 + (75 # 10000))) in
  let oldJ := determinant F1 in
  let F2 := Mat_mul (Mat_mul svd_u sig) (transposed svd_v) in
  q <- checked_div (Jp0 * oldJ) (determinant F2) ;;
  Ok (F2, clamp q (6 # 10) (20 # 1)).

(** The body of the loop of line 66. *)
Definition g2p_particle (dt : real) (g : Grid) (p : Particle)
  : result Particle :=
  vC <- g2p_gather g p ;;
  let p := mkParticle (x p) (fst vC) (F p) (snd vC) (Jp p) (c p) (type p) in
  let p :=
    mkParticle (Vec_add (x p) (scale_Vec dt (v p)))
               (v p) (F p) (C p) (Jp p) (c p) (type p) in
  if (type p <=? 1)%Z then
    let F1 := Mat_mul (Mat_add (Mat1 1) (scale_Mat dt (C p))) (F p) in
    if (type p =? 1)%Z then
      FJ <- snow_plasticity F1 (Jp p) ;;
      Ok (mkParticle (x p) (v p) (fst FJ) (C p) (snd FJ) (c p) (type p))
    else Ok (mkParticle (x p) (v p) F1 (C p) (Jp p) (c p) (type p))
  else Ok p.

Definition g2p (dt : real) (g : Grid) (ps : list Particle)
  : result (list Particle) :=
  map_result (g2p_particle dt g) ps.

(** ** [advance] (lines 25-99) and the main loop *)

Definition advance (dt : real) (st : State) : result State :=
  let g := memset_grid (grid st) in
  g <- p2g L dt (particles st) g ;;
  g <- grid_solve dt g ;;
  ps <- g2p dt g (particles st) ;;
  Ok (mkState ps g).

(** [N] iterations of the main loop's [advance(dt)]. *)
Fixpoint steps (dt : real) (N : nat) (st : State) : result State :=
  match N with
  | O => Ok st
  | S N' => st' <- advance dt st ;; steps dt N' st'
  end.

End Gather.

(** ** Scenes *)

(** A library that is exact on the gradients of material at rest: the
    polar decomposition and the singular value decomposition of a diagonal
    matrix with positive entries have the identity as rotations, and the
    hardening factor [exp 0] is [1]. *)
Definition rest_lib : MathLib :=
  mkMathLib (fun a => 1 + a)
            (fun A => (Mat1 1, A))
            (fun A => (Mat1 1, mkMat (m00 A) 0 0 (m11 A), Mat1 1)).

(** One elastic particle in the middle of the domain, at rest. *)
Definition scene_one : State :=
  mkState [new_Particle (mkVec (1 # 2) (1 # 2)) 0xED553B 0 (Vec1 0)]
          (fun _ _ => Vector3_1 0).

(** ** The vocabulary of the properties *)

(** The sum of [f i j] over [i, j] in [{0, 1, 2}]. *)
Definition sum9 (f : Z -> Z -> real) : real :=
  f 0%Z 0%Z + f 0%Z 1%Z + f 0%Z 2%Z +
  (f 1%Z 0%Z + f 1%Z 1%Z + f 1%Z 2%Z) +
  (f 2%Z 0%Z + f 2%Z 1%Z + f 2%Z 2%Z).

(** The nine nodes of the stencil whose base is [b]. *)
Definition in_stencil (b : Vector2i) (i j : Z) : bool :=
  (ix b <=? i)%Z && (i <=? ix b + 2)%Z && (iy b <=? j)%Z && (j <=? iy b + 2)%Z.

(** All nine nodes are nodes of the grid. *)
Definition stencil_in_bounds (b : Vector2i) : Prop :=
  forall i j, (0 <= i < 3)%Z -> (0 <= j < 3)%Z ->
  in_bounds (ix b + i) (iy b + j) = true.

(** Lines 76-81 for the node value [node] read at offset [(i, j)]. *)
Definition gather_step (p : Particle) (i j : Z) (node : Vector3)
  (acc : Vec * Mat) : Vec * Mat :=
  let dpos := Vec_sub (Vec_of_ints i j) (g2p_fx p) in
  let grid_v := Vec_of_Vector3 node in
  let weight := vx (w_at (g2p_w p) i) * vy (w_at (g2p_w p) j) in
  (Vec_add (fst acc) (scale_Vec weight grid_v),
   Mat_add (snd acc)
     (scale_Mat ((4 # 1) * inv_dx)
        (outer_product (scale_Vec weight grid_v) dpos))).

(** The gather with unchecked reads. *)
Definition gather_sum (g : Grid) (p : Particle) : Vec * Mat :=
  let b := g2p_base_coord p in
  fold_left (fun acc i =>
    fold_left (fun acc j => gather_step p i j (g (ix b + i) (iy b + j))%Z acc)
      [0; 1; 2]%Z acc) [0; 1; 2]%Z (Vec1 0, Mat1 0).

(** The other reading of a cast to [int], C++'s conversion that rounds
    towards zero. *)
Definition cast_toward_zero (r : real) : Z := Z.quot (Qnum r) (QDen r).

(** The positions whose stencil lies on the grid, one axis at a time. *)
Definition coordinate_ok (a : real) : Prop :=
  (1 # 2) * dx <= a /\ a < (real_of_int n - (1 # 2)) * dx.

Definition position_ok (p : Particle) : Prop :=
  coordinate_ok (vx (x p)) /\ coordinate_ok (vy (x p)).

(** The particle store after [N] steps. *)
Definition simulate (L : MathLib) (dt : real) (N : nat) (st : State)
  : result (list Particle) :=
  st' <- steps L dt N st ;; Ok (particles st').

(** What the renderer and the constitutive branch read of a particle and
    the step never writes. *)
Definition tags (p : Particle) : Z * Z := (c p, type p).

(** An elastic, a plastic and a liquid particle, at rest. *)
Definition scene_three : State :=
  mkState [ new_Particle (mkVec (55 # 100) (45 # 100)) 0xED553B 0 (Vec1 0);
            new_Particle (mkVec (45 # 100) (65 # 100)) 0xF2B134 1 (Vec1 0);
            new_Particle (mkVec (30 # 100) (30 # 100)) 0x068587 2 (Vec1 0) ]
          (fun _ _ => Vector3_1 0).

Definition is_Ok {A : Type} (r : result A) : bool :=
  match r with Ok _ => true | Err _ => false end.

Definition orthogonal (U : Mat) : Prop := Mat_mul (transposed U) U = Mat1 1.

Definition diag (a b : real) : Mat := mkMat a 0 0 b.

(** [A] has the singular values [s1] and [s2]: it is [U diag(s1, s2) Vᵗ]
    for two orthogonal matrices and [s1], [s2] are not negative. *)
Definition singular_values (A : Mat) (s1 s2 : real) : Prop :=
  0 <= s1 /\ 0 <= s2 /\
  exists U V, orthogonal U /\ orthogonal V /\
              A = Mat_mul (Mat_mul U (diag s1 s2)) (transposed V).

(** What the step needs of taichi.h's [svd]: the two outer factors are
    orthogonal and the middle one is diagonal. *)
Definition svd_spec (L : MathLib) : Prop :=
  forall A,
    orthogonal (fst (fst (svd L A))) /\ orthogonal (snd (svd L A)) /\
    m01 (snd (fst (svd L A))) = 0 /\ m10 (snd (fst (svd L A))) = 0.

(** Line 58's [boundary]. *)
Definition boundary : real := 5 # 100.

Definition strictly_inside (p : Particle) : Prop :=
  (boundary < vx (x p) /\ vx (x p) < 1 - boundary) /\
  (boundary < vy (x p) /\ vy (x p) < 1 - boundary).

Definition in_unit_square (p : Particle) : Prop :=
  (0 <= vx (x p) /\ vx (x p) <= 1) /\ (0 <= vy (x p) /\ vy (x p) <= 1).

(** The claim as the specification states it, for the program's [dt]. *)
Definition containment_claim (L : MathLib) : Prop :=
  forall N st ps',
    Forall strictly_inside (particles st) ->
    simulate L dt N st = Ok ps' ->
    Forall in_unit_square ps'.

(** One elastic particle in the middle of the domain that moves to the
    right with speed [10000]. *)
Definition scene_fast : State :=
  mkState [new_Particle (mkVec (1 # 2) (1 # 2)) 0xED553B 0 (mkVec (10000 # 1) 0)]
          (fun _ _ => Vector3_1 0).

(** The nine nodes a particle gathers from. *)
Definition stencil_nodes (G : Grid) (p : Particle) : list Vector3 :=
  let b := g2p_base_coord p in
  flat_map (fun i => map (fun j => G (ix b + i) (iy b + j))%Z [0; 1; 2]%Z)
    [0; 1; 2]%Z.

(** Both velocity components of a node are at most [V] in magnitude. *)
Definition node_speed_bounded (V : real) (nd : Vector3) : Prop :=
  (- V <= g0 nd /\ g0 nd <= V) /\ (- V <= g1 nd /\ g1 nd <= V).

(** The node [(i, j)] lies in the left, right or top band. *)
Definition sticky_band (i j : Z) : Prop :=
  real_of_int i / real_of_int n < boundary \/
  1 - boundary < real_of_int i / real_of_int n \/
  1 - boundary < real_of_int j / real_of_int n.

(** The node [(i, j)] lies in the bottom band. *)
Definition bottom_band (j : Z) : Prop :=
  real_of_int j / real_of_int n < boundary.

Definition speed_okb (V : real) (nd : Vector3) : bool :=
  negb (g0 nd <? - V) && negb (V <? g0 nd) &&
  negb (g1 nd <? - V) && negb (V <? g1 nd).

(** Every node has a mass that is not negative, and a node without mass
    has no momentum. *)
Definition mass_inv (g : Grid) : Prop :=
  forall a b, 0 <= g2 (g a b) /\ (g2 (g a b) = 0 -> g a b = Vector3_1 0).

(** The Courant condition of a run of [N] steps: after the grid solve of
    every step, both velocity components of every node that a particle
    gathers from are at most [V] in magnitude. *)
Fixpoint cfl (L : MathLib) (dt V : real) (N : nat) (st : State) : Prop :=
  match N with
  | O => True
  | S N' =>
      match advance L dt st with
      | Ok st' =>
          Forall (fun p =>
                    Forall (node_speed_bounded V) (stencil_nodes (grid st') p))
            (particles st) /\
          cfl L dt V N' st'
      | Err _ => True
      end
  end.

(** The grid solve, node by node: what lines 54-64 make of each node of
    the array. *)
Definition node_solved (dt : real) (g : Grid) : Grid :=
  fun a b =>
    if in_bounds a b
    then match node_update dt a b (g a b) with Ok nd => nd | Err _ => g a b end
    else g a b.

(** The particle store after one step, with the grid solve taken node by
    node. *)
Definition particles_after (L : MathLib) (dt : real) (ps : list Particle)
  : result (list Particle) :=
  g <- p2g L dt ps (fun _ _ => Vector3_1 0) ;;
  g2p L dt (node_solved dt g) ps.

(** The particle store after [N] such steps. *)
Fixpoint simulate_by_nodes (L : MathLib) (dt : real) (N : nat)
  (ps : list Particle) : result (list Particle) :=
  match N with
  | O => Ok ps
  | S N' => ps' <- particles_after L dt ps ;; simulate_by_nodes L dt N' ps'
  end.

(** The Courant condition as a test on the particle store, which also
    demands that every step of the run is defined. *)
Fixpoint cfl_runb (L : MathLib) (dt V : real) (N : nat) (ps : list Particle)
  : bool :=
  match N with
  | O => true
  | S N' =>
      match p2g L dt ps (fun _ _ => Vector3_1 0) with
      | Ok g =>
          match g2p L dt (node_solved dt g) ps with
          | Ok ps' =>
              forallb (fun p =>
                         forallb (speed_okb V) (stencil_nodes (node_solved dt g) p))
                ps &&
              cfl_runb L dt V N' ps'
          | Err _ => false
          end
      | Err _ => false
      end
  end.

(** * Properties *)

(** ** Arithmetic of [real] *)

Lemma this_plus (a b : real) : (this (a + b) == this a + this b)%Q.
Proof. apply Qred_correct. Qed.

Lemma this_mult (a b : real) : (this (a * b) == this a * this b)%Q.
Proof. apply Qred_correct. Qed.

Lemma this_opp (a : real) : (this (- a) == - this a)%Q.
Proof. apply Qred_correct. Qed.

Lemma this_minus (a b : real) : (this (a - b) == this a - this b)%Q.
Proof. unfold Qcminus. rewrite this_plus, this_opp. reflexivity. Qed.

Lemma this_inv (a : real) : (this (/ a) == / this a)%Q.
Proof. apply Qred_correct. Qed.

Lemma this_div (a b : real) : (this (a / b) == this a / this b)%Q.
Proof. unfold Qcdiv. rewrite this_mult, this_inv. reflexivity. Qed.

Lemma this_Q2Qc (q : Q) : (this (Q2Qc q) == q)%Q.
Proof. apply Qred_correct. Qed.

Lemma this_real_of_int (z : Z) : (this (real_of_int z) == inject_Z z)%Q.
Proof. apply Qred_correct. Qed.

(** Moves a goal (and the hypotheses) on [real] to the fractions below. *)
Ltac to_Q :=
  try apply Qc_is_canon;
  unfold Qcle, Qclt in *;
  repeat (rewrite ?this_plus, ?this_mult, ?this_minus, ?this_opp, ?this_div,
            ?this_inv, ?this_real_of_int, ?this_Q2Qc in * ).

Lemma Qcltb_true (a b : real) : (a <? b) = true <-> a < b.
Proof.
  unfold Qcltb. rewrite Qclt_alt.
  destruct (a ?= b); split; intro H; try reflexivity; discriminate H.
Qed.

Lemma Qcltb_false (a b : real) : (a <? b) = false <-> b <= a.
Proof.
  split; intro H.
  - apply Qcnot_lt_le. intro Hlt. apply Qcltb_true in Hlt. congruence.
  - destruct (a <? b) eqn:Heq; [|reflexivity].
    apply Qcltb_true in Heq. exfalso. exact (Qcle_not_lt _ _ H Heq).
Qed.

Lemma clamp_bounds (a lo hi : real) : lo <= hi -> lo <= clamp a lo hi <= hi.
Proof.
  intro Hle. unfold clamp.
  destruct (a <? lo) eqn:H1.
  - split; [apply Qcle_refl | exact Hle].
  - destruct (hi <? a) eqn:H2.
    + split; [exact Hle | apply Qcle_refl].
    + apply Qcltb_false in H1, H2. split; assumption.
Qed.

Lemma inv_dx_eq : inv_dx = 80 # 1.
Proof. apply Qc_is_canon. reflexivity. Qed.

Lemma dx_eq : dx = 1 # 80.
Proof. apply Qc_is_canon. reflexivity. Qed.

(** ** The error monad and the loops *)

Lemma bind_Ok {A B : Type} (m : result A) (k : A -> result B) (b : B) :
  bind m k = Ok b -> exists a, m = Ok a /\ k a = Ok b.
Proof. destruct m as [a|e]; simpl; intro H; [eauto | discriminate]. Qed.

Ltac bind_inv H :=
  let a := fresh "a" in
  let Ha := fresh "Ha" in
  apply bind_Ok in H; destruct H as [a [Ha H]].

(** An invariant of a loop whose body preserves it. *)
Lemma for_each_invariant {A S : Type} (P : S -> Prop) (body : A -> S -> result S) :
  forall l s s',
    (forall a t t', In a l -> P t -> body a t = Ok t' -> P t') ->
    P s -> for_each l body s = Ok s' -> P s'.
Proof.
  induction l as [|a l IH]; simpl; intros s s' Hbody Hs Hrun.
  - inversion Hrun; subst; exact Hs.
  - bind_inv Hrun. apply (IH a0 s'); eauto.
Qed.

Lemma map_result_length {A B : Type} (f : A -> result B) :
  forall l l', map_result f l = Ok l' -> length l' = length l.
Proof.
  induction l as [|a l IH]; simpl; intros l' H.
  - inversion H; reflexivity.
  - bind_inv H. bind_inv H. inversion H; subst. simpl. f_equal. eauto.
Qed.

Lemma map_result_nth {A B : Type} (f : A -> result B) :
  forall l l', map_result f l = Ok l' ->
  forall k a, nth_error l k = Some a ->
  exists b, nth_error l' k = Some b /\ f a = Ok b.
Proof.
  induction l as [|a l IH]; simpl; intros l' H k a' Hk.
  - destruct k; discriminate.
  - bind_inv H. bind_inv H. inversion H; subst.
    destruct k as [|k]; simpl in *.
    + inversion Hk; subst. eauto.
    + eauto.
Qed.

Lemma map_result_nth_inv {A B : Type} (f : A -> result B) :
  forall l l', map_result f l = Ok l' ->
  forall k b, nth_error l' k = Some b ->
  exists a, nth_error l k = Some a /\ f a = Ok b.
Proof.
  induction l as [|a l IH]; simpl; intros l' H k b' Hk.
  - inversion H; subst. destruct k; discriminate.
  - bind_inv H. bind_inv H. inversion H; subst.
    destruct k as [|k]; simpl in *.
    + inversion Hk; subst. eauto.
    + eauto.
Qed.

(** ** The kernel *)

Lemma p2g_w_0 (p : Particle) :
  w_at (p2g_w p) 0 =
  Vec_mul (Vec1 (1 # 2)) (Vec_sqr (Vec_sub (Vec1 (3 # 2)) (p2g_fx p))).
Proof. reflexivity. Qed.

Lemma p2g_w_1 (p : Particle) :
  w_at (p2g_w p) 1 = Vec_sub (Vec1 (3 # 4)) (Vec_sqr (Vec_sub (p2g_fx p) (Vec1 1))).
Proof. reflexivity. Qed.

Lemma p2g_w_2 (p : Particle) :
  w_at (p2g_w p) 2 =
  Vec_mul (Vec1 (1 # 2)) (Vec_sqr (Vec_sub (p2g_fx p) (Vec1 (1 # 2)))).
Proof. reflexivity. Qed.

Ltac unfold_vec :=
  unfold Vec_mul, Vec_sub, Vec_add, Vec_sqr, Vec1, Vec_scale, scale_Vec, sqr,
    Vector3_add, scale_Vector3, Vector3_of, Vector3_1, Vec_of_Vector3,
    Mat_vec, Mat_add, Mat_sub, Mat_mul, scale_Mat, Mat1, transposed,
    determinant, outer_product, Vec_of_ints in *;
  cbn [vx vy g0 g1 g2 m00 m01 m10 m11] in *.

Lemma weights_x_sum (p : Particle) :
  vx (w_at (p2g_w p) 0) + vx (w_at (p2g_w p) 1) + vx (w_at (p2g_w p) 2) = 1.
Proof.
  rewrite p2g_w_0, p2g_w_1, p2g_w_2. generalize (p2g_fx p). intros [fx fy].
  unfold_vec. to_Q. ring.
Qed.

Lemma weights_y_sum (p : Particle) :
  vy (w_at (p2g_w p) 0) + vy (w_at (p2g_w p) 1) + vy (w_at (p2g_w p) 2) = 1.
Proof.
  rewrite p2g_w_0, p2g_w_1, p2g_w_2. generalize (p2g_fx p). intros [fx fy].
  unfold_vec. to_Q. ring.
Qed.

Lemma sum9_product (a b : Z -> real) :
  sum9 (fun i j => a i * b j) =
  (a 0%Z + a 1%Z + a 2%Z) * (b 0%Z + b 1%Z + b 2%Z).
Proof. unfold sum9. to_Q. ring. Qed.

Lemma range_In (lo hi k : Z) : In k (range lo hi) <-> (lo <= k < hi)%Z.
Proof.
  unfold range. rewrite in_map_iff. split.
  - intros [m [Hm Hin]]. apply in_seq in Hin. lia.
  - intro H. exists (Z.to_nat (k - lo)). split; [lia|]. apply in_seq. lia.
Qed.

Lemma range_NoDup (lo hi : Z) : NoDup (range lo hi).
Proof.
  unfold range. apply Injective_map_NoDup; [|apply seq_NoDup].
  intros a b H. lia.
Qed.

Lemma range_0_3 : range 0 3 = [0; 1; 2]%Z.
Proof. reflexivity. Qed.

(** ** Grid writes *)

Lemma grid_add_Ok (g g' : Grid) (i j : Z) (val : Vector3) :
  grid_add g i j val = Ok g' ->
  in_bounds i j = true /\ g' = grid_set g i j (Vector3_add (g i j) val).
Proof.
  unfold grid_add. destruct (in_bounds i j); intro H; inversion H; auto.
Qed.

Lemma grid_set_same (g : Grid) (i j : Z) (val : Vector3) :
  grid_set g i j val i j = val.
Proof. unfold grid_set. rewrite !Z.eqb_refl. reflexivity. Qed.

Lemma grid_set_other (g : Grid) (i j a b : Z) (val : Vector3) :
  a <> i \/ b <> j -> grid_set g i j val a b = g a b.
Proof.
  intro H. unfold grid_set.
  destruct (Z.eqb_spec a i); destruct (Z.eqb_spec b j); simpl; try reflexivity.
  lia.
Qed.

Lemma stencil_in_bounds_iff (b : Vector2i) :
  stencil_in_bounds b <->
  (0 <= ix b /\ ix b + 2 <= n /\ 0 <= iy b /\ iy b + 2 <= n)%Z.
Proof.
  unfold stencil_in_bounds, in_bounds. split.
  - intro H.
    pose proof (H 0%Z 0%Z ltac:(lia) ltac:(lia)) as H0.
    pose proof (H 2%Z 2%Z ltac:(lia) ltac:(lia)) as H2.
    rewrite !andb_true_iff, !Z.leb_le in H0, H2. lia.
  - intros H i j Hi Hj. rewrite !andb_true_iff, !Z.leb_le. lia.
Qed.

Ltac grid_add_inv H :=
  let a := fresh "g" in
  let Ha := fresh "Hg" in
  let Hb := fresh "Hb" in
  apply bind_Ok in H; destruct H as [a [Ha H]];
  apply grid_add_Ok in Ha; destruct Ha as [Hb Ha]; subst a.

(** One row of the scatter: the inner loop of lines 44-50. *)
Lemma scatter_row (f : Z -> Vector3) (a b : Z) (g g' : Grid) :
  for_each [0; 1; 2]%Z (fun j g => grid_add g a (b + j) (f j)) g = Ok g' ->
  (in_bounds a (b + 0) = true /\ in_bounds a (b + 1) = true /\
   in_bounds a (b + 2) = true) /\
  forall a' b',
    g' a' b' =
    if (a' =? a)%Z && (b <=? b')%Z && (b' <=? b + 2)%Z
    then Vector3_add (g a' b') (f (b' - b)%Z) else g a' b'.
Proof.
  cbn [for_each]. intro H. repeat grid_add_inv H.
  inversion H; subst g'; clear H. split; [auto|].
  intros a' b'. unfold grid_set.
  repeat match goal with
         | |- context [(?u =? ?w)%Z] => destruct (Z.eqb_spec u w)
         end;
  cbn [andb];
  repeat match goal with
         | |- context [(?u <=? ?w)%Z] => destruct (Z.leb_spec u w)
         end;
  cbn [andb]; try lia; try reflexivity;
  subst; repeat f_equal; lia.
Qed.

(** What the scatter loop of one particle leaves on the grid. *)
Lemma p2g_scatter_spec (A : Mat) (p : Particle) (g g' : Grid) :
  p2g_scatter A p g = Ok g' ->
  stencil_in_bounds (p2g_base_coord p) /\
  forall a b,
    g' a b =
    if in_stencil (p2g_base_coord p) a b
    then Vector3_add (g a b)
           (p2g_contribution A p (a - ix (p2g_base_coord p))
              (b - iy (p2g_base_coord p)))
    else g a b.
Proof.
  unfold p2g_scatter, for_loop. rewrite range_0_3.
  set (bc := p2g_base_coord p). clearbody bc. cbn [for_each]. intro H.
  apply bind_Ok in H. destruct H as [ga [Ha H]].
  apply bind_Ok in H. destruct H as [gb [Hb H]].
  apply bind_Ok in H. destruct H as [gc [Hc H]].
  inversion H; subst g'; clear H.
  apply scatter_row in Ha, Hb, Hc.
  destruct Ha as [Ba Ha], Hb as [Bb Hb], Hc as [Bc Hc].
  split.
  - apply stencil_in_bounds_iff. unfold in_bounds in *.
    rewrite !andb_true_iff, !Z.leb_le in *. lia.
  - intros a b. rewrite Hc, Hb, Ha. unfold in_stencil.
    destruct (Z.leb_spec (iy bc) b); destruct (Z.leb_spec b (iy bc + 2));
      rewrite ?andb_false_r, ?andb_true_r; try reflexivity.
    destruct (Z.eqb_spec a (ix bc + 0)); destruct (Z.eqb_spec a (ix bc + 1));
      try lia;
      destruct (Z.eqb_spec a (ix bc + 2)); try lia;
      destruct (Z.leb_spec (ix bc) a); destruct (Z.leb_spec a (ix bc + 2));
      cbn [andb]; try lia; try subst a; rewrite ?Z.add_simpl_l; reflexivity.
Qed.

(** ** Which errors the loops can raise *)

Lemma for_each_Err {A S : Type} (P : error -> Prop) (body : A -> S -> result S) :
  (forall a s e, body a s = Err e -> P e) ->
  forall l s e, for_each l body s = Err e -> P e.
Proof.
  intros Hbody. induction l as [|a l IH]; simpl; intros s e H.
  - discriminate.
  - destruct (body a s) as [s'|e'] eqn:Hb; simpl in H.
    + eauto.
    + inversion H; subst. eauto.
Qed.

Lemma for_each_total {A S : Type} (body : A -> S -> result S) :
  forall l, (forall a s, In a l -> exists s', body a s = Ok s') ->
  forall s, exists s', for_each l body s = Ok s'.
Proof.
  induction l as [|a l IH]; simpl; intros Hbody s.
  - eauto.
  - destruct (Hbody a s (or_introl eq_refl)) as [s1 H1]. rewrite H1. simpl.
    apply IH. intros; apply Hbody; auto.
Qed.

Lemma grid_add_Err (g : Grid) (i j : Z) (val : Vector3) (e : error) :
  grid_add g i j val = Err e -> e = OutOfBounds.
Proof.
  unfold grid_add. destruct (in_bounds i j); intro H; inversion H; reflexivity.
Qed.

Lemma grid_get_Err (g : Grid) (i j : Z) (e : error) :
  grid_get g i j = Err e -> e = OutOfBounds.
Proof.
  unfold grid_get. destruct (in_bounds i j); intro H; inversion H; reflexivity.
Qed.

Lemma p2g_scatter_Err (A : Mat) (p : Particle) (g : Grid) (e : error) :
  p2g_scatter A p g = Err e -> e = OutOfBounds.
Proof.
  unfold p2g_scatter, for_loop.
  apply (for_each_Err (fun e => e = OutOfBounds)). clear g e. intros i g e.
  apply (for_each_Err (fun e => e = OutOfBounds)). clear g e. intros j g e.
  apply grid_add_Err.
Qed.

Lemma p2g_scatter_total (A : Mat) (p : Particle) (g : Grid) :
  stencil_in_bounds (p2g_base_coord p) -> exists g', p2g_scatter A p g = Ok g'.
Proof.
  intro Hs. unfold p2g_scatter, for_loop. revert g.
  apply for_each_total. intros i g Hi. revert g.
  apply for_each_total. intros j g Hj.
  apply range_In in Hi, Hj. unfold grid_add. rewrite (Hs i j Hi Hj). eauto.
Qed.

(** The scatter of a particle is defined exactly when its stencil lies on
    the grid; otherwise it indexes outside the array. *)
Lemma p2g_scatter_defined (A : Mat) (p : Particle) (g : Grid) :
  (stencil_in_bounds (p2g_base_coord p) <-> exists g', p2g_scatter A p g = Ok g') /\
  (~ stencil_in_bounds (p2g_base_coord p) <-> p2g_scatter A p g = Err OutOfBounds).
Proof.
  split; split.
  - apply p2g_scatter_total.
  - intros [g' H]. apply p2g_scatter_spec in H. tauto.
  - intro Hn. destruct (p2g_scatter A p g) as [g'|e] eqn:H.
    + apply p2g_scatter_spec in H. tauto.
    + apply p2g_scatter_Err in H. subst. reflexivity.
  - intros H Hs. destruct (p2g_scatter_total A p g Hs) as [g' Hg]. congruence.
Qed.

(** ** The grid solve, node by node *)

Lemma checked_div_Ok (a b : real) : b <> 0 -> checked_div a b = Ok (a / b).
Proof. intro H. unfold checked_div. destruct (Qc_eq_dec b 0); tauto. Qed.

Lemma Qclt_0_neq (a : real) : 0 < a -> a <> 0.
Proof. intros H Heq. subst. exact (Qclt_not_eq _ _ H eq_refl). Qed.

(** [node_update] never divides by zero: it always returns a node. *)
Lemma node_update_total (dt : real) (i j : Z) (g : Vector3) :
  exists g', node_update dt i j g = Ok g'.
Proof.
  unfold node_update. destruct (0 <? g2 g) eqn:Hm; [|eauto].
  apply Qcltb_true in Hm. apply Qclt_0_neq in Hm.
  unfold Vector3_div. rewrite !checked_div_Ok by exact Hm. cbn [bind]. eauto.
Qed.

(** A node without mass is left as it is. *)
Lemma node_update_skip (dt : real) (i j : Z) (g : Vector3) :
  g2 g <= 0 -> node_update dt i j g = Ok g.
Proof.
  intro H. unfold node_update. apply Qcltb_false in H. rewrite H. reflexivity.
Qed.

(** The inner loop of line 53 on the row [i], for the columns [js]. *)
Lemma grid_solve_row (dt : real) (i : Z) :
  forall js g, NoDup js -> (forall j, In j js -> in_bounds i j = true) ->
  exists g',
    for_each js (fun j g =>
      node <- grid_get g i j ;;
      node <- node_update dt i j node ;;
      Ok (grid_set g i j node)) g = Ok g' /\
    forall a b,
      (a = i /\ In b js -> node_update dt a b (g a b) = Ok (g' a b)) /\
      (~ (a = i /\ In b js) -> g' a b = g a b).
Proof.
  induction js as [|j js IH]; intros g Hnd Hin.
  - exists g. split; [reflexivity|]. intros a b. split; [intros [_ []] | reflexivity].
  - inversion Hnd as [|? ? Hj Hnd']; subst.
    cbn [for_each]. unfold grid_get at 1. rewrite (Hin j (or_introl eq_refl)).
    cbn [bind]. destruct (node_update_total dt i j (g i j)) as [nd Hnd1].
    rewrite Hnd1. cbn [bind].
    destruct (IH (grid_set g i j nd) Hnd' (fun k Hk => Hin k (or_intror Hk)))
      as [g' [Hrun Hspec]].
    exists g'. split; [exact Hrun|]. intros a b. split.
    + intros [Ha [Hb|Hb]].
      * subst. destruct (Hspec i b) as [_ H2]. rewrite H2 by tauto.
        rewrite grid_set_same. exact Hnd1.
      * subst. destruct (Hspec i b) as [H1 _]. rewrite <- H1 by tauto.
        rewrite grid_set_other; [reflexivity|].
        right. intro; subst; contradiction.
    + intro Hn. destruct (Hspec a b) as [_ H2]. rewrite H2.
      * apply grid_set_other.
        destruct (Z.eq_dec a i); [|auto]. right. intro; subst. apply Hn. simpl; auto.
      * intros [Ha Hb]. apply Hn. simpl; auto.
Qed.

(** The loops of lines 52-53 on the rows [is], every row over [0, n]. *)
Lemma grid_solve_rows (dt : real) :
  forall rows g, NoDup rows -> (forall i, In i rows -> (0 <= i <= n)%Z) ->
  exists g',
    for_each rows (fun i g =>
      for_loop 0 (n + 1) (fun j g =>
        node <- grid_get g i j ;;
        node <- node_update dt i j node ;;
        Ok (grid_set g i j node)) g) g = Ok g' /\
    forall a b,
      (In a rows /\ (0 <= b <= n)%Z -> node_update dt a b (g a b) = Ok (g' a b)) /\
      (~ (In a rows /\ (0 <= b <= n)%Z) -> g' a b = g a b).
Proof.
  induction rows as [|i rows IH]; intros g Hnd Hin.
  - exists g. split; [reflexivity|]. intros a b. split; [intros [[] _] | reflexivity].
  - inversion Hnd as [|? ? Hi Hnd']; subst.
    cbn [for_each]. unfold for_loop at 1.
    destruct (grid_solve_row dt i (range 0 (n + 1)) g (range_NoDup _ _))
      as [g1 [Hrun1 Hspec1]].
    { intros j Hj. apply range_In in Hj.
      pose proof (Hin i (or_introl eq_refl)) as Hi'.
      unfold in_bounds. rewrite !andb_true_iff, !Z.leb_le. lia. }
    rewrite Hrun1. cbn [bind].
    destruct (IH g1 Hnd' (fun k Hk => Hin k (or_intror Hk))) as [g' [Hrun Hspec]].
    exists g'. split; [exact Hrun|]. intros a b. split.
    + intros [[Ha|Ha] Hb].
      * subst. destruct (Hspec a b) as [_ H2]. rewrite H2 by tauto.
        apply Hspec1. split; [reflexivity|]. apply range_In. lia.
      * destruct (Hspec a b) as [H1 _]. rewrite <- H1 by tauto.
        destruct (Hspec1 a b) as [_ H2]. rewrite H2; [reflexivity|].
        intros [Hai _]. subst. contradiction.
    + intro Hn. destruct (Hspec a b) as [_ H2]. rewrite H2.
      * apply Hspec1. intros [Ha Hb]. apply range_In in Hb. subst.
        apply Hn. split; [simpl; auto | lia].
      * intros [Ha Hb]. apply Hn. simpl; auto.
Qed.

(** The grid solve is defined on every grid, rewrites each node of the
    array by [node_update] and touches nothing else. *)
Lemma grid_solve_spec (dt : real) (g : Grid) :
  exists g',
    grid_solve dt g = Ok g' /\
    forall a b,
      (in_bounds a b = true -> node_update dt a b (g a b) = Ok (g' a b)) /\
      (in_bounds a b = false -> g' a b = g a b).
Proof.
  destruct (grid_solve_rows dt (range 0 (n + 1)) g (range_NoDup _ _))
    as [g' [Hrun Hspec]].
  { intros i Hi. apply range_In in Hi. lia. }
  exists g'. split; [exact Hrun|]. intros a b.
  destruct (Hspec a b) as [H1 H2]. split; intro Hb.
  - apply H1. unfold in_bounds in Hb.
    rewrite !andb_true_iff, !Z.leb_le in Hb. rewrite range_In. lia.
  - apply H2. intros [Ha Hb']. apply range_In in Ha. unfold in_bounds in Hb.
    assert (Ht : (0 <=? a)%Z && (a <=? n)%Z && (0 <=? b)%Z && (b <=? n)%Z = true).
    { rewrite !andb_true_iff, !Z.leb_le. lia. }
    congruence.
Qed.

(** ** The gather loop *)

Lemma g2p_gather_Err (g : Grid) (p : Particle) (e : error) :
  g2p_gather g p = Err e -> e = OutOfBounds.
Proof.
  unfold g2p_gather, for_loop.
  apply (for_each_Err (fun e => e = OutOfBounds)). clear e. intros i acc e.
  apply (for_each_Err (fun e => e = OutOfBounds)). clear acc e. intros j acc e H.
  destruct (grid_get g (ix (g2p_base_coord p) + i) (iy (g2p_base_coord p) + j))
    as [nd|e'] eqn:Hget; cbn [bind] in H.
  - discriminate.
  - inversion H; subst. eapply grid_get_Err; eauto.
Qed.

Lemma g2p_gather_in_bounds (g : Grid) (p : Particle) :
  stencil_in_bounds (g2p_base_coord p) ->
  g2p_gather g p = Ok (gather_sum g p).
Proof.
  intro Hs. unfold g2p_gather, gather_sum, for_loop. rewrite range_0_3.
  set (b := g2p_base_coord p) in *. clearbody b.
  cbn [for_each]. unfold grid_get.
  rewrite !Hs by lia. reflexivity.
Qed.

Lemma grid_get_Ok (g : Grid) (i j : Z) (nd : Vector3) :
  grid_get g i j = Ok nd -> in_bounds i j = true.
Proof. unfold grid_get. destruct (in_bounds i j); [reflexivity | discriminate]. Qed.

Lemma for_each_Ok_body {A S : Type} (body : A -> S -> result S) :
  forall l s s', for_each l body s = Ok s' ->
  forall a, In a l -> exists t t', body a t = Ok t'.
Proof.
  induction l as [|a l IH]; simpl; intros s s' H a' Hin.
  - contradiction.
  - apply bind_Ok in H. destruct H as [s1 [H1 H]].
    destruct Hin as [Heq|Hin]; [subst; eauto | eauto].
Qed.

Lemma g2p_gather_Ok (g : Grid) (p : Particle) (r : Vec * Mat) :
  g2p_gather g p = Ok r -> stencil_in_bounds (g2p_base_coord p).
Proof.
  unfold g2p_gather, for_loop. intros H i j Hi Hj.
  apply range_In in Hi, Hj.
  destruct (for_each_Ok_body _ _ _ _ H i Hi) as [t [t' Hrow]].
  destruct (for_each_Ok_body _ _ _ _ Hrow j Hj) as [u [u' Hnode]].
  apply bind_Ok in Hnode. destruct Hnode as [nd [Hget _]].
  eapply grid_get_Ok; eauto.
Qed.

Lemma g2p_gather_defined (g : Grid) (p : Particle) :
  (stencil_in_bounds (g2p_base_coord p) <-> exists r, g2p_gather g p = Ok r) /\
  (~ stencil_in_bounds (g2p_base_coord p) <-> g2p_gather g p = Err OutOfBounds).
Proof.
  split; split.
  - intro H. rewrite g2p_gather_in_bounds by exact H. eauto.
  - intros [r H]. eapply g2p_gather_Ok; eauto.
  - intro Hn. destruct (g2p_gather g p) as [r|e] eqn:H.
    + apply g2p_gather_Ok in H. tauto.
    + apply g2p_gather_Err in H. subst. reflexivity.
  - intros H Hs. rewrite g2p_gather_in_bounds in H by exact Hs. discriminate.
Qed.

(** ** Floors *)

Lemma Qfloor_ge_iff (q : Q) (z : Z) :
  (z <= Qfloor q)%Z <-> (inject_Z z <= q)%Q.
Proof.
  split; intro H.
  - apply Qle_trans with (inject_Z (Qfloor q)); [|apply Qfloor_le].
    rewrite <- Zle_Qle. exact H.
  - assert (Hlt : (inject_Z z < inject_Z (Qfloor q + 1))%Q).
    { eapply Qle_lt_trans; [exact H | apply Qlt_floor]. }
    rewrite <- Zlt_Qlt in Hlt. lia.
Qed.

Lemma Qfloor_le_iff (q : Q) (z : Z) :
  (Qfloor q <= z)%Z <-> (q < inject_Z (z + 1))%Q.
Proof.
  split; intro H.
  - eapply Qlt_le_trans; [apply Qlt_floor|]. rewrite <- Zle_Qle. lia.
  - assert (Hlt : (inject_Z (Qfloor q) < inject_Z (z + 1))%Q).
    { eapply Qle_lt_trans; [apply Qfloor_le | exact H]. }
    rewrite <- Zlt_Qlt in Hlt. lia.
Qed.

Lemma coordinate_ok_floor (a : real) :
  coordinate_ok a <->
  (0 <= cast_int (a * inv_dx - (1 # 2)) /\
   cast_int (a * inv_dx - (1 # 2)) + 2 <= n)%Z.
Proof.
  unfold coordinate_ok, cast_int, n. rewrite inv_dx_eq, dx_eq.
  assert (H78 : forall z, (z + 2 <= 80 <-> z <= 78)%Z) by (intro; lia).
  rewrite H78, Qfloor_ge_iff, Qfloor_le_iff.
  change (inject_Z 0) with 0%Q. change (inject_Z (78 + 1)) with (79 # 1)%Q.
  to_Q. change (inject_Z 80) with (80 # 1)%Q.
  split; intros [H1 H2]; split; lra.
Qed.

(** Rounding towards zero and the floor agree on what is not negative,
    hence on the base cell of every position from [0.5 dx] on; below that
    they differ. *)
Lemma cast_toward_zero_nonneg (r : real) :
  0 <= r -> cast_toward_zero r = cast_int r.
Proof.
  unfold cast_toward_zero, cast_int, Qfloor, Qcle, Qle. intro H.
  destruct (this r) as [a b]. cbn [Qnum Qden] in *.
  change (Qnum (this 0)) with 0%Z in H. rewrite Z.mul_0_l, Z.mul_1_r in H.
  apply Z.quot_div_nonneg; lia.
Qed.

Lemma base_cell_rounding (a : real) :
  (1 # 2) * dx <= a ->
  cast_toward_zero (a * inv_dx - (1 # 2)) = cast_int (a * inv_dx - (1 # 2)).
Proof.
  intro H. apply cast_toward_zero_nonneg. revert H.
  rewrite inv_dx_eq, dx_eq. intro H. to_Q. lra.
Qed.

Lemma cast_toward_zero_negative :
  cast_toward_zero (- (42 # 100)) = 0%Z /\ cast_int (- (42 # 100)) = (-1)%Z.
Proof. split; reflexivity. Qed.

Lemma position_ok_p2g (p : Particle) :
  position_ok p <-> stencil_in_bounds (p2g_base_coord p).
Proof.
  rewrite stencil_in_bounds_iff. unfold position_ok.
  rewrite !coordinate_ok_floor. unfold p2g_base_coord, Vec_cast_int.
  unfold_vec. cbn [ix iy]. tauto.
Qed.

Lemma position_ok_g2p (p : Particle) :
  position_ok p <-> stencil_in_bounds (g2p_base_coord p).
Proof. exact (position_ok_p2g p). Qed.

(** ** P2G over the whole particle store *)

Lemma p2g_untouched (L : MathLib) (dt : real) (a b : Z) :
  forall ps g g',
    p2g L dt ps g = Ok g' ->
    (forall p, In p ps -> in_stencil (p2g_base_coord p) a b = false) ->
    g' a b = g a b.
Proof.
  unfold p2g. induction ps as [|p ps IH]; simpl; intros g g' H Hout.
  - inversion H; reflexivity.
  - apply bind_Ok in H. destruct H as [g1 [H1 H]].
    rewrite (IH g1 g' H) by auto.
    apply p2g_scatter_spec in H1. destruct H1 as [_ H1].
    rewrite H1, (Hout p) by auto. reflexivity.
Qed.

(** ** One particle through G2P *)

Lemma snow_plasticity_Jp (L : MathLib) (F1 F2 : Mat) (Jp0 Jp1 : real) :
  snow_plasticity L F1 Jp0 = Ok (F2, Jp1) -> (6 # 10) <= Jp1 <= (20 # 1).
Proof.
  unfold snow_plasticity. destruct (svd L F1) as [[U sig] V].
  intro H. apply bind_Ok in H. destruct H as [q [_ H]].
  inversion H; subst. apply clamp_bounds. unfold Qcle. simpl. lra.
Qed.

Lemma g2p_particle_inv (L : MathLib) (dt : real) (g : Grid) (p p' : Particle) :
  g2p_particle L dt g p = Ok p' ->
  exists vC,
    g2p_gather g p = Ok vC /\
    v p' = fst vC /\ C p' = snd vC /\
    x p' = Vec_add (x p) (scale_Vec dt (fst vC)) /\
    c p' = c p /\ type p' = type p /\
    ((1 < type p)%Z -> F p' = F p /\ Jp p' = Jp p) /\
    ((type p < 1)%Z ->
       F p' = Mat_mul (Mat_add (Mat1 1) (scale_Mat dt (snd vC))) (F p) /\
       Jp p' = Jp p) /\
    (type p = 1%Z ->
       snow_plasticity L
         (Mat_mul (Mat_add (Mat1 1) (scale_Mat dt (snd vC))) (F p)) (Jp p)
       = Ok (F p', Jp p')).
Proof.
  unfold g2p_particle. intro H.
  apply bind_Ok in H. destruct H as [vC [Hg H]]. exists vC.
  cbn [x v F C Jp c type] in H.
  destruct (Z.leb_spec (type p) 1) as [Hle|Hgt].
  - destruct (Z.eqb_spec (type p) 1) as [Heq|Hne].
    + apply bind_Ok in H. destruct H as [[F2 J2] [Hs H]].
      inversion H; subst p'; clear H. cbn [x v F C Jp c type fst snd] in *.
      repeat split; try reflexivity; intros; try assumption; lia.
    + inversion H; subst p'; clear H. cbn [x v F C Jp c type].
      repeat split; try reflexivity; intros; try assumption; lia.
  - inversion H; subst p'; clear H. cbn [x v F C Jp c type].
    repeat split; try reflexivity; intros; try assumption; lia.
Qed.

Lemma advance_inv (L : MathLib) (dt : real) (st st' : State) :
  advance L dt st = Ok st' ->
  exists g1,
    p2g L dt (particles st) (memset_grid (grid st)) = Ok g1 /\
    grid_solve dt g1 = Ok (grid st') /\
    g2p L dt (grid st') (particles st) = Ok (particles st').
Proof.
  unfold advance. intro H.
  apply bind_Ok in H. destruct H as [g1 [H1 H]].
  apply bind_Ok in H. destruct H as [g2 [H2 H]].
  apply bind_Ok in H. destruct H as [ps [H3 H]].
  inversion H; subst st'; clear H. cbn [particles grid]. eauto.
Qed.

(** A step maps the particle at index [k] to the particle at index [k]. *)
Lemma advance_nth (L : MathLib) (dt : real) (st st' : State) :
  advance L dt st = Ok st' ->
  length (particles st') = length (particles st) /\
  (forall k p, nth_error (particles st) k = Some p ->
     exists p', nth_error (particles st') k = Some p' /\
                g2p_particle L dt (grid st') p = Ok p') /\
  (forall k p', nth_error (particles st') k = Some p' ->
     exists p, nth_error (particles st) k = Some p /\
               g2p_particle L dt (grid st') p = Ok p').
Proof.
  intro H. apply advance_inv in H. destruct H as [g1 [_ [_ H]]].
  unfold g2p in H. split; [|split].
  - eapply map_result_length; eauto.
  - eapply map_result_nth; eauto.
  - eapply map_result_nth_inv; eauto.
Qed.

(** ** Runs *)

Lemma map_result_map {A B T : Type} (f : A -> result B) (ta : A -> T) (tb : B -> T) :
  (forall a b, f a = Ok b -> tb b = ta a) ->
  forall l l', map_result f l = Ok l' -> map tb l' = map ta l.
Proof.
  intros Hf. induction l as [|a l IH]; simpl; intros l' H.
  - inversion H; reflexivity.
  - apply bind_Ok in H. destruct H as [b [Hb H]].
    apply bind_Ok in H. destruct H as [bs [Hbs H]].
    inversion H; subst. simpl. f_equal; eauto.
Qed.

Lemma advance_tags (L : MathLib) (dt : real) (st st' : State) :
  advance L dt st = Ok st' ->
  map tags (particles st') = map tags (particles st).
Proof.
  intro H. apply advance_inv in H. destruct H as [g1 [_ [_ H]]].
  unfold g2p in H. eapply map_result_map; [|exact H].
  intros p p' Hp. apply g2p_particle_inv in Hp.
  destruct Hp as [vC [_ [_ [_ [_ [Hc [Ht _]]]]]]].
  unfold tags. congruence.
Qed.

Lemma steps_tags (L : MathLib) (dt : real) :
  forall N st st', steps L dt N st = Ok st' ->
  map tags (particles st') = map tags (particles st).
Proof.
  induction N as [|N IH]; simpl; intros st st' H.
  - inversion H; reflexivity.
  - apply bind_Ok in H. destruct H as [st1 [H1 H]].
    rewrite (IH st1 st' H). eapply advance_tags; eauto.
Qed.

(** A particle that is neither elastic nor plastic keeps [F] and [Jp]. *)
Lemma advance_liquid (L : MathLib) (dt : real) (st st' : State) (k : nat)
  (p : Particle) :
  advance L dt st = Ok st' ->
  nth_error (particles st) k = Some p ->
  exists p', nth_error (particles st') k = Some p' /\
             type p' = type p /\
             ((1 < type p)%Z -> F p' = F p /\ Jp p' = Jp p).
Proof.
  intros H Hk. apply advance_nth in H. destruct H as [_ [H _]].
  destruct (H k p Hk) as [p' [Hk' Hp]]. exists p'. split; [exact Hk'|].
  apply g2p_particle_inv in Hp.
  destruct Hp as [vC [_ [_ [_ [_ [_ [Ht [Hliq _]]]]]]]]. auto.
Qed.

Lemma steps_liquid (L : MathLib) (dt : real) (k : nat) :
  forall N st st' p,
    steps L dt N st = Ok st' ->
    nth_error (particles st) k = Some p ->
    exists p', nth_error (particles st') k = Some p' /\
               type p' = type p /\
               ((1 < type p)%Z -> F p' = F p /\ Jp p' = Jp p).
Proof.
  induction N as [|N IH]; simpl; intros st st' p H Hk.
  - inversion H; subst. exists p. auto.
  - apply bind_Ok in H. destruct H as [st1 [H1 H]].
    destruct (advance_liquid L dt st st1 k p H1 Hk) as [p1 [Hk1 [Ht1 Hl1]]].
    destruct (IH st1 st' p1 H Hk1) as [p' [Hk' [Ht' Hl']]].
    exists p'. split; [exact Hk'|]. split; [congruence|].
    intro Hlt. destruct (Hl1 Hlt) as [HF HJ].
    rewrite Ht1 in Hl'. destruct (Hl' Hlt) as [HF' HJ']. split; congruence.
Qed.

Lemma simulate_Ok (L : MathLib) (dt : real) (N : nat) (st : State)
  (ps' : list Particle) :
  simulate L dt N st = Ok ps' ->
  exists st', steps L dt N st = Ok st' /\ particles st' = ps'.
Proof.
  unfold simulate. intro H. apply bind_Ok in H. destruct H as [st' [H1 H]].
  inversion H; subst. eauto.
Qed.

(** The last of [S N] steps. *)
Lemma steps_last (L : MathLib) (dt : real) :
  forall N st st', steps L dt (S N) st = Ok st' ->
  exists st1, steps L dt N st = Ok st1 /\ advance L dt st1 = Ok st'.
Proof.
  induction N as [|N IH]; intros st st' H.
  - simpl in H. apply bind_Ok in H. destruct H as [st1 [H1 H]].
    inversion H; subst. exists st. split; [reflexivity | exact H1].
  - change (steps L dt (S (S N)) st)
      with (st1 <- advance L dt st ;; steps L dt (S N) st1) in H.
    apply bind_Ok in H. destruct H as [st1 [H1 H]].
    destruct (IH st1 st' H) as [st2 [H2 H3]].
    exists st2. split; [|exact H3].
    simpl. rewrite H1. exact H2.
Qed.

(** ** Evaluating a run *)

(** The grid solve rewrites the [81 x 81] nodes one after the other; the
    particles of a run are the same when each node is solved where it is
    read, which is what the examples evaluate. *)

Lemma g2p_gather_ext (G G' : Grid) (p : Particle) :
  (forall a b, G a b = G' a b) -> g2p_gather G p = g2p_gather G' p.
Proof.
  intro H. unfold g2p_gather, for_loop. rewrite range_0_3.
  cbn [for_each]. unfold grid_get. rewrite !H. reflexivity.
Qed.

Lemma g2p_ext (L : MathLib) (dt : real) (G G' : Grid) (ps : list Particle) :
  (forall a b, G a b = G' a b) -> g2p L dt G ps = g2p L dt G' ps.
Proof.
  intro H. unfold g2p. induction ps as [|p ps IH]; [reflexivity|].
  cbn [map_result]. rewrite IH. unfold g2p_particle at 1 3.
  rewrite (g2p_gather_ext G G' p H). reflexivity.
Qed.

Lemma grid_solve_node_solved (dt : real) (g G : Grid) :
  grid_solve dt g = Ok G -> forall a b, G a b = node_solved dt g a b.
Proof.
  intros Hsolve a b. destruct (grid_solve_spec dt g) as [G' [Hrun Hspec]].
  rewrite Hsolve in Hrun. inversion Hrun; subst G'; clear Hrun.
  destruct (Hspec a b) as [Hin Hout]. unfold node_solved.
  destruct (in_bounds a b).
  - rewrite (Hin eq_refl). reflexivity.
  - apply Hout. reflexivity.
Qed.

(** A step, read through its particles. *)
Lemma advance_particles (L : MathLib) (dt : real) (st : State) :
  (st' <- advance L dt st ;; Ok (particles st')) =
  particles_after L dt (particles st).
Proof.
  unfold advance, particles_after.
  change (memset_grid (grid st)) with (fun (_ _ : Z) => Vector3_1 0).
  destruct (p2g L dt (particles st) (fun _ _ => Vector3_1 0)) as [g|e];
    [|reflexivity].
  cbn [bind]. destruct (grid_solve_spec dt g) as [G [Hrun _]].
  rewrite Hrun. cbn [bind].
  rewrite (g2p_ext L dt G (node_solved dt g) (particles st)
             (grid_solve_node_solved dt g G Hrun)).
  destruct (g2p L dt (node_solved dt g) (particles st)); reflexivity.
Qed.

Lemma simulate_by_nodes_eq (L : MathLib) (dt : real) :
  forall N st, simulate L dt N st = simulate_by_nodes L dt N (particles st).
Proof.
  unfold simulate. induction N as [|N IH]; intro st; [reflexivity|].
  cbn [steps simulate_by_nodes]. rewrite <- advance_particles.
  destruct (advance L dt st) as [st1|e]; [|reflexivity].
  cbn [bind]. apply IH.
Qed.

Lemma advance_by_nodes (L : MathLib) (dt : real) (st : State) (g : Grid)
  (ps' : list Particle) :
  p2g L dt (particles st) (fun _ _ => Vector3_1 0) = Ok g ->
  g2p L dt (node_solved dt g) (particles st) = Ok ps' ->
  exists st', advance L dt st = Ok st' /\ particles st' = ps' /\
              forall a b, grid st' a b = node_solved dt g a b.
Proof.
  intros Hp2g Hg2p. unfold advance.
  change (memset_grid (grid st)) with (fun (_ _ : Z) => Vector3_1 0).
  rewrite Hp2g. cbn [bind]. destruct (grid_solve_spec dt g) as [G [Hrun _]].
  rewrite Hrun. cbn [bind].
  rewrite (g2p_ext L dt G (node_solved dt g) (particles st)
             (grid_solve_node_solved dt g G Hrun)), Hg2p.
  cbn [bind]. eexists. split; [reflexivity|]. cbn [particles grid].
  split; [reflexivity|]. apply grid_solve_node_solved. exact Hrun.
Qed.

Lemma stencil_nodes_ext (G G' : Grid) (p : Particle) :
  (forall a b, G a b = G' a b) -> stencil_nodes G p = stencil_nodes G' p.
Proof.
  intro H. unfold stencil_nodes. cbn [flat_map map app]. rewrite !H. reflexivity.
Qed.

Lemma is_Ok_simulate (L : MathLib) (dt : real) (N : nat) (st : State) :
  is_Ok (simulate_by_nodes L dt N (particles st)) = true ->
  is_Ok (simulate L dt N st) = true.
Proof. rewrite simulate_by_nodes_eq. auto. Qed.

(** ** Scenes for the examples *)

Lemma is_Ok_true {A : Type} (r : result A) :
  is_Ok r = true -> exists a, r = Ok a.
Proof. destruct r as [a|e]; simpl; intro H; [eauto | discriminate]. Qed.

(** The particle of [scene_one]: its base cell, its fractional offset and
    its kernel weights. *)
Example centre_base_coord :
  p2g_base_coord (new_Particle (mkVec (1 # 2) (1 # 2)) 0xED553B 0 (Vec1 0)) =
  mkVector2i 39 39.
Proof. reflexivity. Qed.

Example centre_fx :
  let fx := p2g_fx (new_Particle (mkVec (1 # 2) (1 # 2)) 0xED553B 0 (Vec1 0)) in
  this (vx fx) = 1%Q /\ this (vy fx) = 1%Q.
Proof. split; reflexivity. Qed.

Example centre_weights :
  map (fun w => this (vx w))
    (p2g_w (new_Particle (mkVec (1 # 2) (1 # 2)) 0xED553B 0 (Vec1 0))) =
  [(1 # 8)%Q; (3 # 4)%Q; (1 # 8)%Q].
Proof. reflexivity. Qed.

Lemma Mat_ext (a b c d a' b' c' d' : real) :
  a = a' -> b = b' -> c = c' -> d = d' -> mkMat a b c d = mkMat a' b' c' d'.
Proof. intros; subst; reflexivity. Qed.

(** Material at rest has no stress. *)
Lemma rest_affine (L : MathLib) (dt : real) (x0 v0 : Vec) (c0 t0 : Z) :
  fst (polar_decomp L (Mat1 1)) = Mat1 1 ->
  stress L dt (new_Particle x0 c0 t0 v0) = Mat1 0 /\
  affine L dt (new_Particle x0 c0 t0 v0) = Mat1 0.
Proof.
  intro Hpolar.
  assert (Hs : stress L dt (new_Particle x0 c0 t0 v0) = Mat1 0).
  { unfold stress. cbn [F Jp new_Particle]. rewrite Hpolar.
    generalize (exp L (hardening * (1 - 1))). intro e.
    unfold_vec. apply Mat_ext; to_Q; ring. }
  split; [exact Hs|].
  unfold affine. rewrite Hs. cbn [C new_Particle]. unfold_vec.
  apply Mat_ext; to_Q; ring.
Qed.

(** The step of [scene_one], evaluated. *)
Lemma scene_one_step (L : MathLib) :
  fst (polar_decomp L (Mat1 1)) = Mat1 1 ->
  exists p',
    simulate L dt 1 scene_one = Ok [p'] /\
    vx (v p') = 0 /\ vy (v p') = (-200 # 1) * dt /\ vy (v p') = - (2 # 100) /\
    vx (x p') = 1 # 2 /\ vy (x p') = (1 # 2) - (2 # 100) * dt /\
    (1 # 2) - vy (x p') = 2 # 1000000.
Proof.
  intro Hpolar.
  destruct (rest_affine L dt (mkVec (1 # 2) (1 # 2)) (Vec1 0) 0xED553B 0 Hpolar)
    as [_ Ha].
  rewrite simulate_by_nodes_eq. cbn [simulate_by_nodes].
  unfold particles_after, scene_one.
  cbn [particles]. unfold p2g. cbn [for_each]. unfold p2g_particle.
  rewrite Ha. vm_compute.
  eexists. split; [reflexivity|].
  repeat split; apply Qc_is_canon; reflexivity.
Qed.

Lemma simulate_advances (L : MathLib) (dt : real) (N : nat) (st : State)
  (ps' : list Particle) :
  simulate L dt (S N) st = Ok ps' -> is_Ok (advance L dt st) = true.
Proof.
  unfold simulate. cbn [steps]. intro H.
  destruct (advance L dt st); [reflexivity | discriminate].
Qed.

Lemma scene_one_advances : is_Ok (advance rest_lib dt scene_one) = true.
Proof.
  destruct (scene_one_step rest_lib eq_refl) as [p' [H _]].
  exact (simulate_advances rest_lib dt 0 scene_one [p'] H).
Qed.

Lemma scene_three_runs : is_Ok (simulate rest_lib dt 3 scene_three) = true.
Proof. apply is_Ok_simulate. vm_compute. reflexivity. Qed.

Lemma stencil_node (b : Vector2i) (i j : Z) :
  (0 <= i <= 2)%Z -> (0 <= j <= 2)%Z ->
  in_stencil b (ix b + i) (iy b + j) = true.
Proof.
  intros Hi Hj. unfold in_stencil. rewrite !andb_true_iff, !Z.leb_le. lia.
Qed.

(** ** C2: the kernel is a partition of unity *)

Lemma contribution_mass (A : Mat) (p : Particle) (i j : Z) :
  g2 (p2g_contribution A p i j) =
  vx (w_at (p2g_w p) i) * vy (w_at (p2g_w p) j) * particle_mass.
Proof.
  unfold p2g_contribution. unfold_vec. unfold particle_mass. to_Q. ring.
Qed.

(** C2.  For every particle the three quadratic B-spline weights of each
    axis sum to 1, so the nine product weights sum to 1, the nine mass
    contributions of the scatter sum to [particle_mass], and on a grid that
    was just reset the nine nodes of the particle's stencil hold a total
    mass of [particle_mass] after the particle's scatter. *)
Theorem kernel_partition_of_unity (p : Particle) :
  let w := p2g_w p in
  let b := p2g_base_coord p in
  vx (w_at w 0) + vx (w_at w 1) + vx (w_at w 2) = 1 /\
  vy (w_at w 0) + vy (w_at w 1) + vy (w_at w 2) = 1 /\
  sum9 (fun i j => vx (w_at w i) * vy (w_at w j)) = 1 /\
  (forall A, sum9 (fun i j => g2 (p2g_contribution A p i j)) = particle_mass) /\
  (forall L dt g g',
     p2g_particle L dt p (memset_grid g) = Ok g' ->
     sum9 (fun i j => g2 (g' (ix b + i) (iy b + j))%Z) = particle_mass).
Proof.
  intros w b. subst w.
  assert (Hprod : sum9 (fun i j => vx (w_at (p2g_w p) i) * vy (w_at (p2g_w p) j)) = 1).
  { rewrite sum9_product, weights_x_sum, weights_y_sum. apply Qc_is_canon. reflexivity. }
  assert (Hmass : forall A,
             sum9 (fun i j => g2 (p2g_contribution A p i j)) = particle_mass).
  { intro A. unfold sum9. rewrite !contribution_mass.
    unfold sum9 in Hprod. unfold particle_mass. rewrite !Qcmult_1_r. exact Hprod. }
  split; [apply weights_x_sum|]. split; [apply weights_y_sum|].
  split; [exact Hprod|]. split; [exact Hmass|].
  intros L dt0 g g' H. unfold p2g_particle in H.
  apply p2g_scatter_spec in H. destruct H as [_ H].
  rewrite <- (Hmass (affine L dt0 p)). unfold sum9. fold b in H.
  rewrite !H, !stencil_node by lia. rewrite !Z.add_simpl_l.
  unfold memset_grid. unfold_vec. rewrite !Qcplus_0_l. reflexivity.
Qed.

Lemma kernel_partition_of_unity_witness :
  exists g',
    p2g_particle rest_lib dt (new_Particle (mkVec (1 # 2) (1 # 2)) 0 0 (Vec1 0))
      (memset_grid (grid scene_one)) = Ok g' /\
    sum9 (fun i j => g2 (g' (39 + i) (39 + j))%Z) = particle_mass.
Proof.
  assert (H : is_Ok (p2g_particle rest_lib dt
                       (new_Particle (mkVec (1 # 2) (1 # 2)) 0 0 (Vec1 0))
                       (memset_grid (grid scene_one))) = true)
    by (vm_compute; reflexivity).
  apply is_Ok_true in H. destruct H as [g' H]. exists g'. split; [exact H|].
  exact (proj2 (proj2 (proj2 (proj2
           (kernel_partition_of_unity
              (new_Particle (mkVec (1 # 2) (1 # 2)) 0 0 (Vec1 0))))))
           rest_lib dt (grid scene_one) g' H).
Defined.

(** ** C3: liquid particles keep their deformation gradient *)

(** C3.  Through any number of steps a liquid particle ([type == 2]) keeps
    its place in the store and its deformation gradient [F]. *)
Theorem liquid_F_unchanged (L : MathLib) (dt : real) (N : nat) (st : State)
  (ps' : list Particle) (k : nat) (p : Particle) :
  simulate L dt N st = Ok ps' ->
  nth_error (particles st) k = Some p ->
  type p = 2%Z ->
  exists p', nth_error ps' k = Some p' /\ type p' = 2%Z /\ F p' = F p.
Proof.
  intros Hsim Hk Ht. apply simulate_Ok in Hsim.
  destruct Hsim as [st' [Hrun Hps]]. subst ps'.
  destruct (steps_liquid L dt k N st st' p Hrun Hk) as [p' [Hk' [Ht' Hl]]].
  exists p'. split; [exact Hk'|]. split; [congruence|].
  apply Hl. lia.
Qed.

Lemma liquid_F_unchanged_witness :
  exists ps' p',
    simulate rest_lib dt 3 scene_three = Ok ps' /\
    nth_error ps' 2 = Some p' /\ type p' = 2%Z /\ F p' = Mat1 1.
Proof.
  destruct (is_Ok_true _ scene_three_runs) as [ps' H].
  destruct (liquid_F_unchanged rest_lib dt 3 scene_three ps' 2
              (new_Particle (mkVec (30 # 100) (30 # 100)) 0x068587 2 (Vec1 0))
              H eq_refl eq_refl) as [p' Hp'].
  exists ps', p'. split; [exact H | exact Hp'].
Defined.

(** ** C5: nodes without mass are skipped *)

Lemma Vector3_div_Ok (g : Vector3) (a : real) :
  a <> 0 -> Vector3_div g a = Ok (mkVector3 (g0 g / a) (g1 g / a) (g2 g / a)).
Proof.
  intro H. unfold Vector3_div. rewrite !checked_div_Ok by exact H. reflexivity.
Qed.

(** C5.  The grid solve divides a node's momentum by its mass only under
    the guard [g[2] > 0]: a node whose mass is not positive is returned as
    it is, under the guard the divisor is not zero, and the grid solve
    raises no error on any grid.  A node outside the stencil of every
    particle is zero (momentum, hence velocity, and mass) after the step. *)
Theorem zero_mass_nodes_skipped :
  (forall dt i j g, g2 g <= 0 -> node_update dt i j g = Ok g) /\
  (forall g, (0 <? g2 g) = true ->
     Vector3_div g (g2 g) =
     Ok (mkVector3 (g0 g / g2 g) (g1 g / g2 g) (g2 g / g2 g))) /\
  (forall dt i j g, exists g', node_update dt i j g = Ok g') /\
  (forall dt g, exists g', grid_solve dt g = Ok g') /\
  (forall L dt st st' a b,
     advance L dt st = Ok st' ->
     (forall p, In p (particles st) ->
        in_stencil (p2g_base_coord p) a b = false) ->
     grid st' a b = Vector3_1 0).
Proof.
  split; [exact node_update_skip|].
  split.
  { intros g Hm. apply Vector3_div_Ok. apply Qclt_0_neq.
    apply Qcltb_true. exact Hm. }
  split; [exact node_update_total|].
  split.
  { intros dt0 g. destruct (grid_solve_spec dt0 g) as [g' [H _]]. eauto. }
  intros L dt0 st st' a b Hadv Hout.
  apply advance_inv in Hadv. destruct Hadv as [g1 [Hp2g [Hsolve _]]].
  pose proof (p2g_untouched L dt0 a b _ _ _ Hp2g Hout) as Hzero.
  unfold memset_grid in Hzero.
  destruct (grid_solve_spec dt0 g1) as [g' [Hrun Hspec]].
  rewrite Hsolve in Hrun. inversion Hrun; subst g'; clear Hrun.
  destruct (Hspec a b) as [Hin Hnot].
  destruct (in_bounds a b) eqn:Hb.
  - specialize (Hin eq_refl). rewrite Hzero in Hin.
    rewrite node_update_skip in Hin by apply Qcle_refl.
    inversion Hin; reflexivity.
  - rewrite Hnot by reflexivity. exact Hzero.
Qed.

Lemma zero_mass_nodes_skipped_witness :
  node_update dt 10 10 (Vector3_1 0) = Ok (Vector3_1 0) /\
  exists st', advance rest_lib dt scene_one = Ok st' /\
              grid st' 10%Z 10%Z = Vector3_1 0.
Proof.
  split.
  - apply (proj1 zero_mass_nodes_skipped). apply Qcle_refl.
  - destruct (is_Ok_true _ scene_one_advances) as [st' H]. exists st'.
    split; [exact H|].
    apply (proj2 (proj2 (proj2 (proj2 zero_mass_nodes_skipped)))
             rest_lib dt scene_one st' 10%Z 10%Z H).
    intros p [Hp|[]]. subst p. vm_compute. reflexivity.
Defined.

(** ** C6: the base cell and the kernel of the two transfers *)

(** C6.  P2G and G2P both take the componentwise floor of
    [position * inv_dx - 0.5], which is the floor of
    [position / dx - 0.5], as the base cell, and compute the same base
    cell, the same fractional offset and the same three kernel weights
    from a position. *)
Theorem base_cell_is_floor (p : Particle) :
  p2g_base_coord p =
    mkVector2i (Qfloor (vx (x p) * inv_dx - (1 # 2))%Qc)
               (Qfloor (vy (x p) * inv_dx - (1 # 2))%Qc) /\
  p2g_base_coord p =
    mkVector2i (Qfloor (vx (x p) / dx - (1 # 2))%Qc)
               (Qfloor (vy (x p) / dx - (1 # 2))%Qc) /\
  g2p_base_coord p = p2g_base_coord p /\
  g2p_fx p = p2g_fx p /\
  g2p_w p = p2g_w p.
Proof.
  split; [reflexivity|]. split; [|repeat split; reflexivity].
  unfold p2g_base_coord, Vec_cast_int, cast_int. unfold_vec.
  assert (Hdiv : forall a : real, a / dx = a * inv_dx).
  { intro a. rewrite inv_dx_eq, dx_eq. to_Q. field. }
  rewrite !Hdiv. reflexivity.
Qed.

(** ** C7: determinism *)

(** C7.  The outcome of [N] steps, the new particle store or the error, is
    a function of the particle store alone: whatever the grid array holds
    when the run starts, the result is the same. *)
Theorem advance_deterministic (L : MathLib) (dt : real) (N : nat)
  (ps : list Particle) (ga gb : Grid) :
  simulate L dt N (mkState ps ga) = simulate L dt N (mkState ps gb).
Proof.
  destruct N as [|N]; [reflexivity|].
  unfold simulate. cbn [steps].
  replace (advance L dt (mkState ps gb)) with (advance L dt (mkState ps ga))
    by reflexivity.
  reflexivity.
Qed.

(** ** C9: the store keeps its size, its order and the tags *)

(** C9.  After any number of steps the particle store has the same
    length, and the particle at each index has the color and the type it
    had at the start. *)
Theorem store_shape_preserved (L : MathLib) (dt : real) (N : nat) (st : State)
  (ps' : list Particle) :
  simulate L dt N st = Ok ps' ->
  length ps' = length (particles st) /\
  map tags ps' = map tags (particles st) /\
  forall k p', nth_error ps' k = Some p' ->
    exists p, nth_error (particles st) k = Some p /\
              c p' = c p /\ type p' = type p.
Proof.
  intro Hsim. apply simulate_Ok in Hsim.
  destruct Hsim as [st' [Hrun Hps]]. subst ps'.
  pose proof (steps_tags L dt N st st' Hrun) as Htags.
  assert (Hlen : length (particles st') = length (particles st)).
  { rewrite <- (length_map tags (particles st')), Htags. apply length_map. }
  split; [exact Hlen|]. split; [exact Htags|].
  intros k p' Hk.
  destruct (nth_error (particles st) k) as [p|] eqn:Hk0.
  - exists p. split; [reflexivity|].
    pose proof (map_nth_error tags k (particles st') Hk) as H1.
    pose proof (map_nth_error tags k (particles st) Hk0) as H2.
    rewrite Htags, H2 in H1. unfold tags in H1. inversion H1. auto.
  - apply nth_error_None in Hk0. rewrite <- Hlen in Hk0.
    apply nth_error_None in Hk0. congruence.
Qed.

Lemma store_shape_preserved_witness :
  exists ps',
    simulate rest_lib dt 3 scene_three = Ok ps' /\
    length ps' = 3%nat /\
    map tags ps' = [(0xED553B, 0); (0xF2B134, 1); (0x068587, 2)]%Z.
Proof.
  destruct (is_Ok_true _ scene_three_runs) as [ps' H]. exists ps'.
  split; [exact H|].
  destruct (store_shape_preserved rest_lib dt 3 scene_three ps' H)
    as [Hlen [Htags _]].
  split; [exact Hlen | exact Htags].
Defined.

(** ** C10: which positions keep the stencil on the grid *)

(** C10.  The nine nodes [grid[base_coord.x + i][base_coord.y + j]] that
    P2G writes and G2P reads are nodes of the array exactly when both
    components of the position lie in [0.5 dx, (n - 0.5) dx).  A component
    in [(n - 0.5) dx, 1] puts a node outside the array.  P2G and the gather
    of G2P are defined on the positions of the first kind and index out of
    bounds on all others. *)
Theorem grid_access_in_bounds_iff (p : Particle) :
  (stencil_in_bounds (p2g_base_coord p) <-> position_ok p) /\
  (stencil_in_bounds (g2p_base_coord p) <-> position_ok p) /\
  ((real_of_int n - (1 # 2)) * dx <= vx (x p) <= 1 \/
   (real_of_int n - (1 # 2)) * dx <= vy (x p) <= 1 ->
   exists i j, (0 <= i < 3)%Z /\ (0 <= j < 3)%Z /\
     in_bounds (ix (p2g_base_coord p) + i) (iy (p2g_base_coord p) + j) = false) /\
  (forall L dt g,
     (position_ok p <-> exists g', p2g_particle L dt p g = Ok g') /\
     (~ position_ok p <-> p2g_particle L dt p g = Err OutOfBounds)) /\
  (forall g,
     (position_ok p <-> exists r, g2p_gather g p = Ok r) /\
     (~ position_ok p <-> g2p_gather g p = Err OutOfBounds)).
Proof.
  split; [symmetry; apply position_ok_p2g|].
  split; [symmetry; apply position_ok_g2p|].
  split.
  { intro Hhigh.
    assert (Hnot : ~ position_ok p).
    { unfold position_ok, coordinate_ok. intros [[_ Hx] [_ Hy]].
      destruct Hhigh as [[H _]|[H _]].
      - exact (Qcle_not_lt _ _ H Hx).
      - exact (Qcle_not_lt _ _ H Hy). }
    rewrite position_ok_p2g, stencil_in_bounds_iff in Hnot.
    set (b := p2g_base_coord p) in *. clearbody b.
    destruct (in_bounds (ix b + 0) (iy b + 0)) eqn:H0.
    - exists 2%Z, 2%Z. split; [lia|]. split; [lia|].
      unfold in_bounds in *. rewrite !andb_true_iff, !Z.leb_le in H0.
      rewrite !andb_false_iff, !Z.leb_gt. lia.
    - exists 0%Z, 0%Z. split; [lia|]. split; [lia|]. exact H0. }
  split.
  - intros L dt0 g. unfold p2g_particle. rewrite position_ok_p2g.
    apply p2g_scatter_defined.
  - intro g. rewrite position_ok_g2p. apply g2p_gather_defined.
Qed.

Lemma grid_access_in_bounds_iff_witness :
  (exists i j, (0 <= i < 3)%Z /\ (0 <= j < 3)%Z /\
     in_bounds
       (ix (p2g_base_coord (new_Particle (mkVec (1 # 1) (1 # 2)) 0 0 (Vec1 0))) + i)
       (iy (p2g_base_coord (new_Particle (mkVec (1 # 1) (1 # 2)) 0 0 (Vec1 0))) + j)
     = false) /\
  p2g_base_coord (new_Particle (mkVec (1 # 1) (1 # 2)) 0 0 (Vec1 0)) =
    mkVector2i 79 39.
Proof.
  split; [|reflexivity].
  apply (proj1 (proj2 (proj2
           (grid_access_in_bounds_iff
              (new_Particle (mkVec (1 # 1) (1 # 2)) 0 0 (Vec1 0)))))).
  left. split; unfold Qcle; vm_compute; discriminate.
Defined.

(** ** C4: the snow plasticity clamps *)

Lemma clamp_constants :
  1 - (25 # 1000) = 975 # 1000 /\ 1 + (75 # 10000) = 10075 # 10000.
Proof. split; apply Qc_is_canon; reflexivity. Qed.

Lemma snow_plasticity_F (L : MathLib) (F1 F2 : Mat) (Jp0 Jp1 : real) :
  svd_spec L ->
  snow_plasticity L F1 Jp0 = Ok (F2, Jp1) ->
  exists s1 s2,
    singular_values F2 s1 s2 /\
    (975 # 1000) <= s1 <= (10075 # 10000) /\
    (975 # 1000) <= s2 <= (10075 # 10000).
Proof.
  intros Hsvd. specialize (Hsvd F1). unfold snow_plasticity.
  destruct (svd L F1) as [[U sig] V]. cbn [fst snd] in Hsvd.
  destruct Hsvd as [HU [HV [H01 H10]]].
  intro H. apply bind_Ok in H. destruct H as [q [_ H]].
  inversion H; subst F2 Jp1; clear H.
  destruct clamp_constants as [Hlo Hhi]. rewrite Hlo, Hhi.
  assert (Hle : (975 # 1000) <= (10075 # 10000)) by (unfold Qcle; simpl; lra).
  pose proof (clamp_bounds (m00 sig) _ _ Hle) as B0.
  pose proof (clamp_bounds (m11 sig) _ _ Hle) as B1.
  exists (clamp (m00 sig) (975 # 1000) (10075 # 10000)),
         (clamp (m11 sig) (975 # 1000) (10075 # 10000)).
  split; [|split; assumption].
  assert (Hpos : 0 <= (975 # 1000)) by (unfold Qcle; simpl; lra).
  split; [eapply Qcle_trans; [exact Hpos | apply B0]|].
  split; [eapply Qcle_trans; [exact Hpos | apply B1]|].
  exists U, V. split; [exact HU|]. split; [exact HV|].
  rewrite H01, H10. reflexivity.
Qed.

Lemma determinant_mul (A B : Mat) :
  determinant (Mat_mul A B) = determinant A * determinant B.
Proof. destruct A, B. unfold_vec. to_Q. ring. Qed.

Lemma determinant_transposed (A : Mat) : determinant (transposed A) = determinant A.
Proof. destruct A. unfold_vec. to_Q. ring. Qed.

Lemma orthogonal_determinant (U : Mat) : orthogonal U -> determinant U <> 0.
Proof.
  unfold orthogonal. intros H Hz.
  apply (f_equal determinant) in H.
  rewrite determinant_mul, determinant_transposed, Hz, Qcmult_0_l in H.
  revert H. unfold determinant, Mat1. cbn [m00 m01 m10 m11].
  intro H. apply (f_equal this) in H. revert H. vm_compute. discriminate.
Qed.

(** With such an [svd] the quotient of line 93 has a divisor that is not
    zero. *)
Lemma snow_plasticity_defined (L : MathLib) (F1 : Mat) (Jp0 : real) :
  svd_spec L -> exists r, snow_plasticity L F1 Jp0 = Ok r.
Proof.
  intros Hsvd. specialize (Hsvd F1). unfold snow_plasticity.
  destruct (svd L F1) as [[U sig] V]. cbn [fst snd] in Hsvd.
  destruct Hsvd as [HU [HV [H01 H10]]].
  rewrite checked_div_Ok; [cbn [bind]; eauto|].
  rewrite !determinant_mul, determinant_transposed.
  apply orthogonal_determinant in HU, HV.
  intro Hz. apply Qcmult_integral in Hz. destruct Hz as [Hz|Hz]; [|tauto].
  apply Qcmult_integral in Hz. destruct Hz as [Hz|Hz]; [tauto|].
  revert Hz. unfold determinant. cbn [m00 m01 m10 m11]. rewrite H01, H10.
  destruct clamp_constants as [Hlo Hhi]. rewrite Hlo, Hhi.
  assert (Hle : (975 # 1000) <= (10075 # 10000)) by (unfold Qcle; simpl; lra).
  destruct (clamp_bounds (m00 sig) _ _ Hle) as [B0 _].
  destruct (clamp_bounds (m11 sig) _ _ Hle) as [B1 _].
  set (c0 := clamp (m00 sig) _ _) in *. set (c1 := clamp (m11 sig) _ _) in *.
  clearbody c0 c1. intro Hz.
  assert (Hq : (this (c0 * c1 - 0 * 0) == 0)%Q) by (rewrite Hz; reflexivity).
  to_Q. nra.
Qed.

(** C4.  With an [svd] whose outer factors are orthogonal and whose middle
    factor is diagonal: after every step (after [N + 1] steps, for every
    [N]) each plastic particle ([type == 1]) has [Jp] in [0.6, 20] and a
    deformation gradient whose two singular values are in
    [0.975, 1.0075]; and the plasticity update of a step is defined on
    every trial gradient (its quotient has a divisor that is not zero). *)
Theorem snow_clamp_invariant (L : MathLib) (dt : real) (N : nat) (st : State)
  (ps' : list Particle) (p' : Particle) :
  svd_spec L ->
  simulate L dt (S N) st = Ok ps' ->
  In p' ps' ->
  type p' = 1%Z ->
  ((6 # 10) <= Jp p' /\ Jp p' <= (20 # 1)) /\
  (exists s1 s2,
     singular_values (F p') s1 s2 /\
     (975 # 1000) <= s1 <= (10075 # 10000) /\
     (975 # 1000) <= s2 <= (10075 # 10000)) /\
  (forall F1 Jp0, exists r, snow_plasticity L F1 Jp0 = Ok r).
Proof.
  intros Hsvd Hsim Hin Ht. apply simulate_Ok in Hsim.
  destruct Hsim as [st' [Hrun Hps]]. subst ps'.
  apply steps_last in Hrun. destruct Hrun as [st1 [_ Hadv]].
  apply In_nth_error in Hin. destruct Hin as [k Hk].
  apply advance_nth in Hadv. destruct Hadv as [_ [_ Hback]].
  destruct (Hback k p' Hk) as [p [_ Hp]].
  apply g2p_particle_inv in Hp.
  destruct Hp as [vC [_ [_ [_ [_ [_ [Htype [_ [_ Hsnow]]]]]]]]].
  assert (Hp1 : type p = 1%Z) by congruence.
  specialize (Hsnow Hp1). split; [|split].
  - eapply snow_plasticity_Jp; eauto.
  - eapply snow_plasticity_F; eauto.
  - intros F1 Jp0. apply snow_plasticity_defined. exact Hsvd.
Qed.

Lemma rest_lib_svd_spec : svd_spec rest_lib.
Proof.
  intro A. cbn [rest_lib svd fst snd m01 m10].
  assert (H : orthogonal (Mat1 1)).
  { unfold orthogonal. unfold_vec. apply Mat_ext; apply Qc_is_canon; reflexivity. }
  auto.
Qed.

Lemma snow_clamp_invariant_witness :
  exists ps' p',
    simulate rest_lib dt 3 scene_three = Ok ps' /\
    nth_error ps' 1 = Some p' /\ type p' = 1%Z /\
    (6 # 10) <= Jp p' <= (20 # 1) /\
    exists s1 s2,
      singular_values (F p') s1 s2 /\
      (975 # 1000) <= s1 <= (10075 # 10000) /\
      (975 # 1000) <= s2 <= (10075 # 10000).
Proof.
  destruct (is_Ok_true _ scene_three_runs) as [ps' H].
  destruct (simulate_Ok _ _ _ _ _ H) as [st' [Hrun Hps]].
  destruct (steps_liquid rest_lib dt 1 3 scene_three st'
              (new_Particle (mkVec (45 # 100) (65 # 100)) 0xF2B134 1 (Vec1 0))
              Hrun eq_refl) as [p' [Hk [Ht _]]].
  rewrite Hps in Hk. cbn [type new_Particle] in Ht.
  exists ps', p'. split; [exact H|]. split; [exact Hk|]. split; [exact Ht|].
  destruct (snow_clamp_invariant rest_lib dt 2 scene_three ps' p'
              rest_lib_svd_spec H (nth_error_In _ _ Hk) Ht) as [HJ [HF _]].
  split; [exact HJ | exact HF].
Defined.

(** ** C1: one particle at rest, one step *)

(** C1.  With a polar decomposition that returns the identity as the
    rotation of the identity: for one elastic particle at [(0.5, 0.5)]
    with zero velocity, [F = I] and [Jp = 1], the stress term is zero, and
    after one step with [dt = 1e-4] the velocity is [(0, -200 dt)], that is
    [(0, -0.02)], and the position is [(0.5, 0.5 - 0.02 dt)]: [y] has
    decreased by [2e-6]. *)
Theorem rest_particle_falls (L : MathLib) :
  fst (polar_decomp L (Mat1 1)) = Mat1 1 ->
  stress L dt (new_Particle (mkVec (1 # 2) (1 # 2)) 0xED553B 0 (Vec1 0)) = Mat1 0 /\
  exists p',
    simulate L dt 1 scene_one = Ok [p'] /\
    vx (v p') = 0 /\ vy (v p') = (-200 # 1) * dt /\ vy (v p') = - (2 # 100) /\
    vx (x p') = 1 # 2 /\ vy (x p') = (1 # 2) - (2 # 100) * dt /\
    (1 # 2) - vy (x p') = 2 # 1000000.
Proof.
  intro Hpolar. split.
  - exact (proj1 (rest_affine L dt (mkVec (1 # 2) (1 # 2)) (Vec1 0)
                    0xED553B 0 Hpolar)).
  - exact (scene_one_step L Hpolar).
Qed.

Lemma rest_particle_falls_witness :
  exists p',
    simulate rest_lib dt 1 scene_one = Ok [p'] /\
    vy (v p') = - (2 # 100) /\ (1 # 2) - vy (x p') = 2 # 1000000.
Proof.
  destruct (rest_particle_falls rest_lib eq_refl)
    as [_ [p' [Hrun [_ [_ [Hv [_ [_ Hx]]]]]]]].
  exists p'. auto.
Defined.

(** ** C8: containment in the domain *)

Lemma scene_fast_leaves (L : MathLib) :
  fst (polar_decomp L (Mat1 1)) = Mat1 1 ->
  exists p', simulate L dt 1 scene_fast = Ok [p'] /\ vx (x p') = 3 # 2.
Proof.
  intro Hpolar.
  destruct (rest_affine L dt (mkVec (1 # 2) (1 # 2)) (mkVec (10000 # 1) 0)
              0xED553B 0 Hpolar) as [_ Ha].
  rewrite simulate_by_nodes_eq. cbn [simulate_by_nodes].
  unfold particles_after, scene_fast.
  cbn [particles]. unfold p2g. cbn [for_each]. unfold p2g_particle.
  rewrite Ha. vm_compute.
  eexists. split; [reflexivity|].
  apply Qc_is_canon; reflexivity.
Qed.

Lemma scene_fast_inside : Forall strictly_inside (particles scene_fast).
Proof.
  repeat constructor; unfold Qclt; vm_compute; reflexivity.
Qed.

(** C8 fails as stated.  The particle of [scene_fast] starts strictly
    inside [[boundary, 1 - boundary]^2], at [(0.5, 0.5)] with velocity
    [(10000, 0)], and after one step with [dt = 1e-4] it is at [x = 1.5],
    outside [[0, 1]^2]: so with [rest_lib], whose polar decomposition is
    right on the identity, and with every library that is right there. *)
Lemma containment_fails :
  fst (polar_decomp rest_lib (Mat1 1)) = Mat1 1 /\
  Forall strictly_inside (particles scene_fast) /\
  (exists p', simulate rest_lib dt 1 scene_fast = Ok [p'] /\
              vx (x p') = 3 # 2 /\ ~ in_unit_square p') /\
  (forall L, fst (polar_decomp L (Mat1 1)) = Mat1 1 -> ~ containment_claim L).
Proof.
  assert (Hout : forall p', vx (x p') = 3 # 2 -> ~ in_unit_square p').
  { intros p' Hx [[_ Hle] _]. rewrite Hx in Hle. revert Hle.
    unfold Qcle. vm_compute. intro H. apply H. reflexivity. }
  split; [reflexivity|]. split; [exact scene_fast_inside|]. split.
  - destruct (scene_fast_leaves rest_lib eq_refl) as [p' [Hrun Hx]].
    exists p'. auto.
  - intros L Hpolar Hclaim.
    destruct (scene_fast_leaves L Hpolar) as [p' [Hrun Hx]].
    pose proof (Hclaim 1%nat scene_fast [p'] scene_fast_inside Hrun) as Hin.
    inversion Hin as [|? ? Hp' _]; subst. exact (Hout p' Hx Hp').
Qed.

(** The fractional offset lies in [0.5, 1.5) on each axis. *)
Lemma fx_component_range (a : real) :
  (1 # 2) <= a * inv_dx - real_of_int (cast_int (a * inv_dx - (1 # 2))) /\
  a * inv_dx - real_of_int (cast_int (a * inv_dx - (1 # 2))) < (3 # 2).
Proof.
  unfold cast_int. set (q := a * inv_dx). 
  pose proof (Qfloor_le (q - (1 # 2))%Qc) as Hlo.
  pose proof (Qlt_floor (q - (1 # 2))%Qc) as Hhi.
  set (z := Qfloor (q - (1 # 2))%Qc) in *. clearbody z.
  rewrite inject_Z_plus in Hhi. change (inject_Z 1) with 1%Q in Hhi.
  rewrite this_minus, this_Q2Qc in Hlo, Hhi.
  to_Q. split; lra.
Qed.

Lemma g2p_fx_range (p : Particle) :
  ((1 # 2) <= vx (g2p_fx p) /\ vx (g2p_fx p) < (3 # 2)) /\
  ((1 # 2) <= vy (g2p_fx p) /\ vy (g2p_fx p) < (3 # 2)).
Proof.
  unfold g2p_fx, g2p_base_coord, Vector2i_cast_real, Vec_cast_int.
  unfold_vec. cbn [ix iy]. split; apply fx_component_range.
Qed.

Lemma kernel_nonneg (f : real) :
  (1 # 2) <= f -> f < (3 # 2) ->
  0 <= (1 # 2) * sqr ((3 # 2) - f) /\
  0 <= (3 # 4) - sqr (f - 1) /\
  0 <= (1 # 2) * sqr (f - (1 # 2)).
Proof.
  intros Hlo Hhi. unfold sqr. to_Q. repeat split; nra.
Qed.

Lemma g2p_w_nonneg (p : Particle) (i : Z) :
  (0 <= i < 3)%Z -> 0 <= vx (w_at (g2p_w p) i) /\ 0 <= vy (w_at (g2p_w p) i).
Proof.
  intro Hi. destruct (g2p_fx_range p) as [[Hx1 Hx2] [Hy1 Hy2]].
  destruct (kernel_nonneg _ Hx1 Hx2) as [X0 [X1 X2]].
  destruct (kernel_nonneg _ Hy1 Hy2) as [Y0 [Y1 Y2]].
  assert (Hc : i = 0%Z \/ i = 1%Z \/ i = 2%Z) by lia.
  destruct Hc as [?|[?|?]]; subst i; split; assumption.
Qed.

Lemma g2p_w_sum (p : Particle) :
  vx (w_at (g2p_w p) 0) + vx (w_at (g2p_w p) 1) + vx (w_at (g2p_w p) 2) = 1 /\
  vy (w_at (g2p_w p) 0) + vy (w_at (g2p_w p) 1) + vy (w_at (g2p_w p) 2) = 1.
Proof. split; [exact (weights_x_sum p) | exact (weights_y_sum p)]. Qed.

(** A convex combination of three numbers in [-V, V] is in [-V, V]. *)
Lemma convex3 (a b c u1 u2 u3 V : real) :
  0 <= a -> 0 <= b -> 0 <= c -> a + b + c = 1 ->
  - V <= u1 /\ u1 <= V -> - V <= u2 /\ u2 <= V -> - V <= u3 /\ u3 <= V ->
  - V <= a * u1 + b * u2 + c * u3 /\ a * u1 + b * u2 + c * u3 <= V.
Proof.
  intros Ha Hb Hc Hsum [L1 U1] [L2 U2] [L3 U3].
  assert (Hs : (this a + this b + this c == 1)%Q).
  { rewrite <- !this_plus, Hsum. reflexivity. }
  to_Q. split; nra.
Qed.

(** The gathered velocity is the weighted mean of the nine node
    velocities. *)
Lemma gather_velocity (G : Grid) (p : Particle) :
  let b := g2p_base_coord p in
  let w := g2p_w p in
  vx (fst (gather_sum G p)) =
    vx (w_at w 0) * (vy (w_at w 0) * g0 (G (ix b + 0) (iy b + 0))%Z +
                     vy (w_at w 1) * g0 (G (ix b + 0) (iy b + 1))%Z +
                     vy (w_at w 2) * g0 (G (ix b + 0) (iy b + 2))%Z) +
    vx (w_at w 1) * (vy (w_at w 0) * g0 (G (ix b + 1) (iy b + 0))%Z +
                     vy (w_at w 1) * g0 (G (ix b + 1) (iy b + 1))%Z +
                     vy (w_at w 2) * g0 (G (ix b + 1) (iy b + 2))%Z) +
    vx (w_at w 2) * (vy (w_at w 0) * g0 (G (ix b + 2) (iy b + 0))%Z +
                     vy (w_at w 1) * g0 (G (ix b + 2) (iy b + 1))%Z +
                     vy (w_at w 2) * g0 (G (ix b + 2) (iy b + 2))%Z) /\
  vy (fst (gather_sum G p)) =
    vx (w_at w 0) * (vy (w_at w 0) * g1 (G (ix b + 0) (iy b + 0))%Z +
                     vy (w_at w 1) * g1 (G (ix b + 0) (iy b + 1))%Z +
                     vy (w_at w 2) * g1 (G (ix b + 0) (iy b + 2))%Z) +
    vx (w_at w 1) * (vy (w_at w 0) * g1 (G (ix b + 1) (iy b + 0))%Z +
                     vy (w_at w 1) * g1 (G (ix b + 1) (iy b + 1))%Z +
                     vy (w_at w 2) * g1 (G (ix b + 1) (iy b + 2))%Z) +
    vx (w_at w 2) * (vy (w_at w 0) * g1 (G (ix b + 2) (iy b + 0))%Z +
                     vy (w_at w 1) * g1 (G (ix b + 2) (iy b + 1))%Z +
                     vy (w_at w 2) * g1 (G (ix b + 2) (iy b + 2))%Z).
Proof.
  intros b w. unfold gather_sum. fold b. cbn [fold_left].
  unfold gather_step. fold w. cbn [fst snd].
  generalize (w_at w 0) (w_at w 1) (w_at w 2). intros w0 w1 w2.
  set (b0 := ix b) in *. set (b1 := iy b) in *. clearbody b0 b1.
  unfold Vec_add, scale_Vec, Vec_of_Vector3, Vec1. cbn [vx vy].
  split; to_Q; ring.
Qed.

Lemma gathered_speed_bounded (G : Grid) (p : Particle) (V : real) :
  Forall (node_speed_bounded V) (stencil_nodes G p) ->
  (- V <= vx (fst (gather_sum G p)) /\ vx (fst (gather_sum G p)) <= V) /\
  (- V <= vy (fst (gather_sum G p)) /\ vy (fst (gather_sum G p)) <= V).
Proof.
  intro H. unfold stencil_nodes in H. cbn [flat_map map app] in H.
  repeat match goal with
         | H : Forall _ (_ :: _) |- _ =>
             let Hn := fresh "Hn" in
             apply Forall_cons_iff in H; destruct H as [Hn H]
         end.
  clear H.
  destruct (gather_velocity G p) as [Hx Hy]. rewrite Hx, Hy. clear Hx Hy.
  destruct (g2p_w_sum p) as [Sx Sy].
  destruct (g2p_w_nonneg p 0 ltac:(lia)) as [X0 Y0].
  destruct (g2p_w_nonneg p 1 ltac:(lia)) as [X1 Y1].
  destruct (g2p_w_nonneg p 2 ltac:(lia)) as [X2 Y2].
  unfold node_speed_bounded in *.
  split; apply convex3; try assumption; apply convex3; try assumption; tauto.
Qed.

Lemma Qcmax_ge_l (a b : real) : a <= Qcmax a b.
Proof.
  unfold Qcmax. destruct (a <? b) eqn:H.
  - apply Qclt_le_weak. apply Qcltb_true. exact H.
  - apply Qcle_refl.
Qed.

Lemma node_update_bands (dt : real) (i j : Z) (g g' : Vector3) :
  0 < g2 g -> node_update dt i j g = Ok g' ->
  (sticky_band i j -> g' = Vector3_1 0) /\
  (bottom_band j -> 0 <= g1 g').
Proof.
  intros Hm H. unfold node_update in H.
  rewrite (proj2 (Qcltb_true _ _) Hm) in H.
  rewrite Vector3_div_Ok in H by (apply Qclt_0_neq; exact Hm).
  cbn [bind] in H. fold boundary in H.
  set (gn := Vector3_add _ _) in H. clearbody gn.
  unfold sticky_band, bottom_band.
  set (xr := real_of_int i / real_of_int n) in *.
  set (yr := real_of_int j / real_of_int n) in *. clearbody xr yr.
  split.
  - intro Hband.
    assert (Hb : (xr <? boundary) || (1 - boundary <? xr) || (1 - boundary <? yr)
                 = true).
    { rewrite !orb_true_iff, !Qcltb_true. tauto. }
    rewrite Hb in H. destruct (yr <? boundary); inversion H; reflexivity.
  - intro Hband. rewrite (proj2 (Qcltb_true _ _) Hband) in H.
    inversion H; subst g'. cbn [g1]. apply Qcmax_ge_l.
Qed.

Lemma speed_okb_spec (V : real) (nd : Vector3) :
  speed_okb V nd = true -> node_speed_bounded V nd.
Proof.
  unfold speed_okb, node_speed_bounded.
  rewrite !andb_true_iff, !negb_true_iff, !Qcltb_false. tauto.
Qed.

Lemma p2g_w_nonneg (p : Particle) (i : Z) :
  (0 <= i < 3)%Z -> 0 <= vx (w_at (p2g_w p) i) /\ 0 <= vy (w_at (p2g_w p) i).
Proof. exact (g2p_w_nonneg p i). Qed.

Lemma mass_accumulates (m w : real) :
  0 <= m -> 0 <= w ->
  0 <= m + w * (particle_mass + 0) /\
  (m + w * (particle_mass + 0) = 0 -> m = 0 /\ w = 0).
Proof.
  unfold particle_mass. intros Hm Hw. split.
  - to_Q. lra.
  - intro H.
    assert (Hq : (this (m + w * (1 + 0)) == 0)%Q) by (rewrite H; reflexivity).
    to_Q. split; apply Qc_is_canon; change (this 0) with 0%Q; lra.
Qed.

Lemma p2g_scatter_mass_inv (A : Mat) (p : Particle) (g g' : Grid) :
  mass_inv g -> p2g_scatter A p g = Ok g' -> mass_inv g'.
Proof.
  intros Hinv H. apply p2g_scatter_spec in H. destruct H as [_ H].
  intros a b. rewrite H. destruct (Hinv a b) as [Hm Hz].
  destruct (in_stencil (p2g_base_coord p) a b) eqn:Hs; [|auto].
  unfold in_stencil in Hs. rewrite !andb_true_iff, !Z.leb_le in Hs.
  set (i := (a - ix (p2g_base_coord p))%Z).
  set (j := (b - iy (p2g_base_coord p))%Z).
  destruct (p2g_w_nonneg p i ltac:(lia)) as [Hwx _].
  destruct (p2g_w_nonneg p j ltac:(lia)) as [_ Hwy].
  unfold p2g_contribution.
  set (w := vx (w_at (p2g_w p) i) * vy (w_at (p2g_w p) j)).
  assert (Hw : 0 <= w).
  { subst w. revert Hwx Hwy.
    generalize (vx (w_at (p2g_w p) i)) (vy (w_at (p2g_w p) j)).
    intros u1 u2 H1 H2. to_Q. nra. }
  clearbody w. unfold Vector3_add, scale_Vector3, Vector3_of.
  cbn [g0 g1 g2]. destruct (mass_accumulates _ _ Hm Hw) as [Hge Hzero].
  split; [exact Hge|].
  intro H0. destruct (Hzero H0) as [Hm0 Hw0].
  rewrite (Hz Hm0), Hw0. unfold Vector3_1. cbn [g0 g1 g2].
  rewrite !Qcmult_0_l, !Qcplus_0_l. reflexivity.
Qed.

Lemma p2g_mass_inv (L : MathLib) (dt : real) (ps : list Particle) (g g' : Grid) :
  mass_inv g -> p2g L dt ps g = Ok g' -> mass_inv g'.
Proof.
  unfold p2g. intros Hinv H.
  apply (for_each_invariant mass_inv (p2g_particle L dt) ps g g'); auto.
  intros p t t' _ Ht Hrun. unfold p2g_particle in Hrun.
  eapply p2g_scatter_mass_inv; eauto.
Qed.

Lemma memset_mass_inv (g : Grid) : mass_inv (memset_grid g).
Proof.
  intros a b. unfold memset_grid, Vector3_1. cbn [g2].
  split; [apply Qcle_refl | reflexivity].
Qed.

(** After the grid solve of a step the nodes of the sticky band are at
    rest and the nodes of the bottom band do not move down. *)
Lemma solved_bands (L : MathLib) (dt : real) (st st' : State) (a b : Z) :
  advance L dt st = Ok st' ->
  in_bounds a b = true ->
  (sticky_band a b -> g0 (grid st' a b) = 0 /\ g1 (grid st' a b) = 0) /\
  (bottom_band b -> 0 <= g1 (grid st' a b)).
Proof.
  intros Hadv Hb. apply advance_inv in Hadv.
  destruct Hadv as [ga [Hp2g [Hsolve _]]].
  pose proof (p2g_mass_inv _ _ _ _ _ (memset_mass_inv (grid st)) Hp2g) as Hinv.
  destruct (grid_solve_spec dt ga) as [G [Hrun Hspec]].
  rewrite Hsolve in Hrun. inversion Hrun; subst G; clear Hrun.
  destruct (Hspec a b) as [Hin _]. specialize (Hin Hb).
  destruct (Hinv a b) as [Hm Hz].
  apply Qcle_lt_or_eq in Hm. destruct Hm as [Hpos|Hzero].
  - destruct (node_update_bands dt a b _ _ Hpos Hin) as [Hs Hbot].
    split; [|exact Hbot].
    intro Hband. rewrite (Hs Hband). split; reflexivity.
  - symmetry in Hzero. rewrite node_update_skip in Hin
      by (rewrite Hzero; apply Qcle_refl).
    inversion Hin as [Heq]. rewrite (Hz Hzero).
    split; [intros _; split; reflexivity | intros _; apply Qcle_refl].
Qed.

(** The bands in node indices: the left band is [i < 4], the right and the
    top band are [i > 76] and [j > 76], the bottom band is [j < 4]. *)
Lemma node_coordinate (i : Z) :
  (this (real_of_int i / real_of_int n) == inject_Z i / 80)%Q.
Proof. unfold n. to_Q. reflexivity. Qed.

Lemma sticky_band_nodes (i j : Z) :
  (i < 4 \/ 76 < i \/ 76 < j)%Z -> sticky_band i j.
Proof.
  unfold sticky_band, boundary, Qclt. intro H.
  rewrite !this_minus, !this_Q2Qc, !(node_coordinate _).
  rewrite (Zlt_Qlt i 4), (Zlt_Qlt 76 i), (Zlt_Qlt 76 j) in H.
  change (inject_Z 4) with 4%Q in H. change (inject_Z 76) with 76%Q in H.
  unfold Qdiv. change (/ 80)%Q with (1 # 80)%Q.
  destruct H as [H|[H|H]]; [left | right; left | right; right]; lra.
Qed.

Lemma bottom_band_nodes (j : Z) : (j < 4)%Z -> bottom_band j.
Proof.
  unfold bottom_band, boundary, Qclt. intro H.
  rewrite !this_Q2Qc, !(node_coordinate _).
  rewrite (Zlt_Qlt j 4) in H. change (inject_Z 4) with 4%Q in H.
  unfold Qdiv. change (/ 80)%Q with (1 # 80)%Q. lra.
Qed.

(** Where the base cell of a coordinate lies. *)
Lemma base_cell_low (a : real) :
  a < (3125 # 100000) -> (cast_int (a * inv_dx - (1 # 2)) + 2 <= 3)%Z.
Proof.
  intro H. unfold cast_int. rewrite inv_dx_eq.
  assert (H1 : (Qfloor (a * (80 # 1) - (1 # 2))%Qc <= 1)%Z).
  { apply Qfloor_le_iff. change (inject_Z (1 + 1)) with 2%Q. to_Q. lra. }
  lia.
Qed.

Lemma base_cell_high (a : real) :
  (96875 # 100000) <= a -> (77 <= cast_int (a * inv_dx - (1 # 2)))%Z.
Proof.
  intro H. unfold cast_int. rewrite inv_dx_eq.
  apply Qfloor_ge_iff. change (inject_Z 77) with 77%Q. to_Q. lra.
Qed.

Lemma nonneg3 (a b c u1 u2 u3 : real) :
  0 <= a -> 0 <= b -> 0 <= c -> 0 <= u1 -> 0 <= u2 -> 0 <= u3 ->
  0 <= a * u1 + b * u2 + c * u3.
Proof. intros. to_Q. nra. Qed.

Lemma gathered_at_rest (G : Grid) (p : Particle) :
  (forall i j, (0 <= i < 3)%Z -> (0 <= j < 3)%Z ->
     g0 (G (ix (g2p_base_coord p) + i) (iy (g2p_base_coord p) + j))%Z = 0 /\
     g1 (G (ix (g2p_base_coord p) + i) (iy (g2p_base_coord p) + j))%Z = 0) ->
  vx (fst (gather_sum G p)) = 0 /\ vy (fst (gather_sum G p)) = 0.
Proof.
  intro H. destruct (gather_velocity G p) as [Hx Hy]. rewrite Hx, Hy.
  cbv zeta.
  pose proof (fun i j Hi Hj => proj1 (H i j Hi Hj)) as H0.
  pose proof (fun i j Hi Hj => proj2 (H i j Hi Hj)) as H1.
  rewrite !H0, !H1 by lia.
  repeat rewrite ?Qcmult_0_r, ?Qcplus_0_l.
  split; reflexivity.
Qed.

Lemma gathered_not_down (G : Grid) (p : Particle) :
  (forall i j, (0 <= i < 3)%Z -> (0 <= j < 3)%Z ->
     0 <= g1 (G (ix (g2p_base_coord p) + i) (iy (g2p_base_coord p) + j))%Z) ->
  0 <= vy (fst (gather_sum G p)).
Proof.
  intro H. destruct (gather_velocity G p) as [_ Hy]. rewrite Hy. cbv zeta.
  destruct (g2p_w_nonneg p 0 ltac:(lia)) as [X0 Y0].
  destruct (g2p_w_nonneg p 1 ltac:(lia)) as [X1 Y1].
  destruct (g2p_w_nonneg p 2 ltac:(lia)) as [X2 Y2].
  apply nonneg3; try assumption; apply nonneg3; try assumption;
    apply H; lia.
Qed.

(** One coordinate through the advection of a step: it stays where P2G and
    G2P index in bounds. *)
Lemma advected_coordinate (a s dt V : real) :
  0 <= dt -> dt * V <= (25 # 1000) ->
  - V <= s /\ s <= V ->
  (a < (3125 # 100000) -> 0 <= s) ->
  ((96875 # 100000) <= a -> s = 0) ->
  coordinate_ok a -> coordinate_ok (a + dt * s).
Proof.
  unfold coordinate_ok. rewrite dx_eq. unfold n.
  intros Hdt HV [Hl Hu] Hlow Hhigh [Ha1 Ha2].
  destruct (Qclt_le_dec a (3125 # 100000)) as [Hc|Hc].
  - specialize (Hlow Hc). clear Hhigh. to_Q.
    change (inject_Z 80) with 80%Q in *. split; nra.
  - clear Hlow. destruct (Qclt_le_dec a (96875 # 100000)) as [Hd|Hd].
    + clear Hhigh. to_Q. change (inject_Z 80) with 80%Q in *. split; nra.
    + rewrite (Hhigh Hd). clear Hhigh. to_Q.
      change (inject_Z 80) with 80%Q in *. split; nra.
Qed.

Lemma strictly_inside_position_ok (p : Particle) :
  strictly_inside p -> position_ok p.
Proof.
  unfold strictly_inside, position_ok, coordinate_ok, boundary.
  rewrite dx_eq. unfold n. intros [[H1 H2] [H3 H4]]. to_Q.
  change (inject_Z 80) with 80%Q in *. repeat split; lra.
Qed.

Lemma position_ok_unit_square (p : Particle) :
  position_ok p -> in_unit_square p.
Proof.
  unfold in_unit_square, position_ok, coordinate_ok.
  rewrite dx_eq. unfold n. intros [[H1 H2] [H3 H4]]. to_Q.
  change (inject_Z 80) with 80%Q in *. repeat split; lra.
Qed.

Lemma cfl_runb_sound (L : MathLib) (dt V : real) :
  forall N st, cfl_runb L dt V N (particles st) = true ->
  cfl L dt V N st /\ is_Ok (simulate L dt N st) = true.
Proof.
  unfold simulate.
  induction N as [|N IH]; intros st H; [split; [exact I | reflexivity]|].
  cbn [cfl cfl_runb steps] in *.
  destruct (p2g L dt (particles st) (fun _ _ => Vector3_1 0)) as [g|e] eqn:Hp2g;
    [|discriminate].
  destruct (g2p L dt (node_solved dt g) (particles st)) as [ps'|e] eqn:Hg2p;
    [|discriminate].
  destruct (advance_by_nodes L dt st g ps' Hp2g Hg2p) as [st' [Hadv [Hps Hgrid]]].
  rewrite Hadv. cbn [bind].
  apply andb_true_iff in H. destruct H as [H1 H2].
  rewrite <- Hps in H2. destruct (IH st' H2) as [Hcfl Hok].
  split; [|exact Hok]. split; [|exact Hcfl].
  rewrite forallb_forall in H1. apply Forall_forall. intros p Hp.
  specialize (H1 p Hp). rewrite forallb_forall in H1.
  apply Forall_forall. intros nd Hnd. apply speed_okb_spec. apply H1.
  rewrite <- (stencil_nodes_ext _ _ p Hgrid). exact Hnd.
Qed.

Lemma g2p_base_ix (p : Particle) :
  ix (g2p_base_coord p) = cast_int (vx (x p) * inv_dx - (1 # 2)).
Proof. reflexivity. Qed.

Lemma g2p_base_iy (p : Particle) :
  iy (g2p_base_coord p) = cast_int (vy (x p) * inv_dx - (1 # 2)).
Proof. reflexivity. Qed.

(** G2P keeps a particle on the positions whose stencil lies on the grid,
    when the band nodes are at rest or do not move down and the Courant
    condition holds with [dt * V <= boundary / 2]. *)
Lemma g2p_keeps_position_ok (L : MathLib) (dt V : real) (G : Grid)
  (p p' : Particle) :
  0 <= dt -> dt * V <= (25 # 1000) ->
  (forall a b, in_bounds a b = true ->
     (sticky_band a b -> g0 (G a b) = 0 /\ g1 (G a b) = 0) /\
     (bottom_band b -> 0 <= g1 (G a b))) ->
  Forall (node_speed_bounded V) (stencil_nodes G p) ->
  g2p_particle L dt G p = Ok p' ->
  position_ok p'.
Proof.
  intros Hdt HV Hbands Hspeed Hp.
  apply g2p_particle_inv in Hp.
  destruct Hp as [vC [Hgather [_ [_ [Hx _]]]]].
  pose proof (g2p_gather_Ok _ _ _ Hgather) as Hs.
  pose proof (proj2 (position_ok_g2p p) Hs) as [Hokx Hoky].
  rewrite (g2p_gather_in_bounds _ _ Hs) in Hgather.
  inversion Hgather; subst vC; clear Hgather.
  destruct (gathered_speed_bounded _ _ _ Hspeed) as [Bx By].
  assert (Hsticky :
    (ix (g2p_base_coord p) + 2 <= 3 \/ 77 <= ix (g2p_base_coord p) \/
     77 <= iy (g2p_base_coord p))%Z ->
    vx (fst (gather_sum G p)) = 0 /\ vy (fst (gather_sum G p)) = 0).
  { intro Hc. apply gathered_at_rest. intros i j Hi Hj.
    apply (Hbands _ _ (Hs i j Hi Hj)). apply sticky_band_nodes. lia. }
  unfold position_ok. rewrite Hx. unfold Vec_add, scale_Vec. cbn [vx vy].
  split; apply (advected_coordinate _ _ dt V); try assumption.
  - intro Hlow. apply base_cell_low in Hlow. rewrite <- g2p_base_ix in Hlow.
    rewrite (proj1 (Hsticky (or_introl Hlow))). apply Qcle_refl.
  - intro Hhigh. apply base_cell_high in Hhigh. rewrite <- g2p_base_ix in Hhigh.
    exact (proj1 (Hsticky (or_intror (or_introl Hhigh)))).
  - intro Hlow. apply base_cell_low in Hlow. rewrite <- g2p_base_iy in Hlow.
    apply gathered_not_down. intros i j Hi Hj.
    apply (Hbands _ _ (Hs i j Hi Hj)). apply bottom_band_nodes. lia.
  - intro Hhigh. apply base_cell_high in Hhigh. rewrite <- g2p_base_iy in Hhigh.
    exact (proj2 (Hsticky (or_intror (or_intror Hhigh)))).
Qed.

Lemma advance_keeps_position_ok (L : MathLib) (dt V : real) (st st' : State) :
  0 <= dt -> dt * V <= (25 # 1000) ->
  advance L dt st = Ok st' ->
  Forall (fun p => Forall (node_speed_bounded V) (stencil_nodes (grid st') p))
    (particles st) ->
  Forall position_ok (particles st').
Proof.
  intros Hdt HV Hadv Hspeed. apply Forall_forall. intros p' Hin.
  apply In_nth_error in Hin. destruct Hin as [k Hk].
  destruct (advance_nth L dt st st' Hadv) as [_ [_ Hback]].
  destruct (Hback k p' Hk) as [p [Hkp Hp]].
  apply nth_error_In in Hkp. rewrite Forall_forall in Hspeed.
  apply (g2p_keeps_position_ok L dt V (grid st') p p'); auto.
  intros a b Hb. exact (solved_bands L dt st st' a b Hadv Hb).
Qed.

Lemma steps_keep_position_ok (L : MathLib) (dt V : real) :
  0 <= dt -> dt * V <= (25 # 1000) ->
  forall N st st',
    cfl L dt V N st ->
    steps L dt N st = Ok st' ->
    Forall position_ok (particles st) ->
    Forall position_ok (particles st').
Proof.
  intros Hdt HV. induction N as [|N IH]; intros st st' Hcfl Hrun Hok.
  - inversion Hrun; subst. exact Hok.
  - cbn [steps cfl] in *. destruct (advance L dt st) as [st1|e] eqn:Hadv;
      [|discriminate].
    cbn [bind] in Hrun. destruct Hcfl as [Hspeed Hcfl].
    apply (IH st1 st' Hcfl Hrun).
    eapply advance_keeps_position_ok; eauto.
Qed.

(** C8, amended.  With [0 <= dt] and the Courant condition
    [dt * V <= boundary / 2] on the node speeds of every step, particles
    that start strictly inside [[boundary, 1 - boundary]^2] are in
    [[0, 1]^2], and on the positions whose stencil lies on the grid, after
    any number of steps: in the grid solve a node with mass in the left,
    right or top band gets velocity zero, and a node with mass in the
    bottom band gets a vertical velocity that is not negative. *)
Theorem containment_in_domain :
  (forall L dt V N st ps',
     0 <= dt -> (2 # 1) * (dt * V) <= boundary ->
     Forall strictly_inside (particles st) ->
     cfl L dt V N st ->
     simulate L dt N st = Ok ps' ->
     Forall in_unit_square ps' /\ Forall position_ok ps') /\
  (forall dt i j g g',
     0 < g2 g -> node_update dt i j g = Ok g' ->
     (sticky_band i j -> g' = Vector3_1 0) /\
     (bottom_band j -> 0 <= g1 g')).
Proof.
  split; [|exact node_update_bands].
  intros L dt0 V N st ps' Hdt HV Hinside Hcfl Hsim.
  apply simulate_Ok in Hsim. destruct Hsim as [st' [Hrun Hps]]. subst ps'.
  assert (HV' : dt0 * V <= (25 # 1000)).
  { revert HV. unfold boundary. intro HV. to_Q. lra. }
  assert (Hok : Forall position_ok (particles st')).
  { apply (steps_keep_position_ok L dt0 V Hdt HV' N st st' Hcfl Hrun).
    eapply Forall_impl; [|exact Hinside].
    exact strictly_inside_position_ok. }
  split; [|exact Hok].
  eapply Forall_impl; [|exact Hok]. exact position_ok_unit_square.
Qed.

Lemma scene_one_cfl : cfl_runb rest_lib dt 1 3 (particles scene_one) = true.
Proof. vm_compute. reflexivity. Qed.

Lemma containment_in_domain_witness :
  exists ps',
    simulate rest_lib dt 3 scene_one = Ok ps' /\
    Forall in_unit_square ps'.
Proof.
  destruct (cfl_runb_sound rest_lib dt 1 3 scene_one scene_one_cfl)
    as [Hcfl Hok].
  destruct (is_Ok_true _ Hok) as [ps' H]. exists ps'.
  split; [exact H|].
  apply (proj1 containment_in_domain rest_lib dt 1 3%nat scene_one ps').
  - unfold Qcle. vm_compute. discriminate.
  - unfold Qcle. vm_compute. discriminate.
  - repeat constructor; unfold Qclt; vm_compute; reflexivity.
  - exact Hcfl.
  - exact H.
Defined.
